(** * ClickHouse: the asynchronous query log and the h3HexAreaM2 function

    A shallow embedding of
    - [dbms/include/DB/Interpreters/QueryLog.h]: the [QueryLogElement]
      record, the [QueryLog] class with its bounded queue, its accumulator
      [data], the saving thread's loop [threadFunction], [createBlock] and
      [flush];
    - [dbms/src/Functions/h3HexAreaM2.cpp]: [FunctionH3HexAreaM2::executeImpl].

    The saving thread is modelled one pass of its [while (true)] loop at a
    time, in a state-and-exception monad over the fields of the object and
    the locals of [threadFunction].  What the outside world contributes to
    a pass (clock readings, calls that raise) is given by a [ThreadEnv];
    producers and the saving thread are interleaved by a schedule. *)

From Stdlib Require Import ZArith Lia Floats Uint63.
From stdpp Require Import base option list strings pretty.

Local Open Scope Z_scope.

(** ** QueryLogElement *)

(** [enum Type { SHUTDOWN = 0, QUERY_START = 1, QUERY_FINISH = 2 }]. *)
Inductive Type_ : Set := SHUTDOWN | QUERY_START | QUERY_FINISH.

(** [enum Interface { TCP = 1, HTTP = 2, OLAP_HTTP = 3 }]. *)
Inductive Interface : Set := TCP | HTTP | OLAP_HTTP.

(** [enum HTTPMethod { UNKNOWN = 0, GET = 1, POST = 2 }]. *)
Inductive HTTPMethod : Set := UNKNOWN | GET | POST.

#[global] Instance Type__eq_dec : EqDecision Type_.
Proof. solve_decision. Defined.
#[global] Instance Interface_eq_dec : EqDecision Interface.
Proof. solve_decision. Defined.
#[global] Instance HTTPMethod_eq_dec : EqDecision HTTPMethod.
Proof. solve_decision. Defined.

(** The enumerators' integer values. *)
Definition Type_value (t : Type_) : Z :=
  match t with SHUTDOWN => 0 | QUERY_START => 1 | QUERY_FINISH => 2 end.

(** The contextual conversion of an unscoped enumeration to [bool] in the
    condition of an [if]: a value is true when it is not zero. *)
Definition Type_to_bool (t : Type_) : bool := negb (Type_value t =? 0).

Record QueryLogElement : Set := mkQueryLogElement {
  type : Type_;
  event_time : Z;
  query_start_time : Z;
  query_duration_ms : Z;
  read_rows : Z;
  read_bytes : Z;
  result_rows : Z;
  result_bytes : Z;
  query : string;
  interface : Interface;
  http_method : HTTPMethod;
  ip_address : Z;
  user : string;
  query_id : string
}.

#[global] Instance QueryLogElement_eq_dec : EqDecision QueryLogElement.
Proof. solve_decision. Defined.

(** The assignment [element.type = t]: every other field is kept. *)
Definition assign_type (element : QueryLogElement) (t : Type_) : QueryLogElement :=
  {| type := t;
     event_time := event_time element;
     query_start_time := query_start_time element;
     query_duration_ms := query_duration_ms element;
     read_rows := read_rows element;
     read_bytes := read_bytes element;
     result_rows := result_rows element;
     result_bytes := result_bytes element;
     query := query element;
     interface := interface element;
     http_method := http_method element;
     ip_address := ip_address element;
     user := user element;
     query_id := query_id element |}.

(** A default-initialised [QueryLogElement element;]: the strings are
    empty; the scalar fields are indeterminate in C++ and are never read
    before they are assigned, so any value stands for them. *)
Definition default_element : QueryLogElement :=
  {| type := SHUTDOWN; event_time := 0; query_start_time := 0;
     query_duration_ms := 0; read_rows := 0; read_bytes := 0;
     result_rows := 0; result_bytes := 0; query := "";
     interface := TCP; http_method := UNKNOWN; ip_address := 0;
     user := ""; query_id := "" |}.

(** [#define DBMS_QUERY_LOG_QUEUE_SIZE 1024]. *)
Definition DBMS_QUERY_LOG_QUEUE_SIZE : nat := 1024.

(** ** Collaborators that are not part of the header *)

(** An exception object in flight; [catch (...)] takes any of them. *)
Inductive exn : Set :=
| Exception (message : string) (code : Z)
| std_exception (what : string).

#[global] Instance exn_eq_dec : EqDecision exn.
Proof. solve_decision. Defined.

(** Modelled from the spec: [ConcurrentBoundedQueue] (its header,
    DB/Common/ConcurrentBoundedQueue.h, is not among the sources).  A queue
    of fixed capacity: [push] inserts at the back and blocks while the
    queue is at capacity, [pop] takes from the front and blocks while it is
    empty, [tryPop] gives up after a timeout; delivery is first in, first
    out, and none of the three can fail. *)
Record ConcurrentBoundedQueue : Set := mkQueue {
  max_fill : nat;
  items : list QueryLogElement
}.

Definition ConcurrentBoundedQueue_new (max_fill_ : nat) : ConcurrentBoundedQueue :=
  {| max_fill := max_fill_; items := [] |}.

(** The result of a queue operation that may have to wait. *)
Inductive Wait (A : Type) : Type :=
| Done (a : A)
| WouldBlock.
Arguments Done {A} a.
Arguments WouldBlock {A}.

Definition queue_push (x : QueryLogElement) (q : ConcurrentBoundedQueue)
  : Wait ConcurrentBoundedQueue :=
  if decide (length (items q) < max_fill q)%nat
  then Done {| max_fill := max_fill q; items := items q ++ [x] |}
  else WouldBlock.

Definition queue_pop (q : ConcurrentBoundedQueue)
  : Wait (QueryLogElement * ConcurrentBoundedQueue) :=
  match items q with
  | x :: rest => Done (x, {| max_fill := max_fill q; items := rest |})
  | [] => WouldBlock
  end.

(** Modelled from the spec: [Stopwatch] (statdaemons/Stopwatch.h is not
    among the sources), the deadline clock of the writer.  It remembers
    the clock reading of its construction or of its last [restart()];
    [elapsed()] is the number of nanoseconds since then, an unsigned
    64-bit difference. *)
Record Stopwatch : Set := mkStopwatch { start_ns : Z }.

Definition UInt64_modulus : Z := 2 ^ 64.

Definition Stopwatch_elapsed (now : Z) (w : Stopwatch) : Z :=
  (now - start_ns w) mod UInt64_modulus.

(** ** Blocks *)

Inductive ColumnKind : Set := ColumnUInt8 | ColumnUInt32.
Inductive DataTypeKind : Set := DataTypeUInt8 | DataTypeDateTime.

(** A [ColumnWithNameAndType]: a freshly allocated column has no rows. *)
Record ColumnWithNameAndType : Set := mkColumn {
  column : ColumnKind;
  column_rows : list Z;
  data_type : DataTypeKind;
  name : string
}.

Definition Block : Set := list ColumnWithNameAndType.

(** ** What the saving thread does that can be observed from outside *)

Inductive Effect : Set :=
| Restarted (now : Z)              (* Stopwatch construction or restart() read the clock *)
| Elapsed (now : Z)                (* elapsed() read the clock *)
| Popped                           (* queue.pop() returned an element *)
| TryPopped (timeout_ms : Z)       (* queue.tryPop(element, timeout_ms) was entered *)
| Flushed (batch : list QueryLogElement) (* flush() was entered with this accumulator *)
| Logged (where_ : string) (e : exn).    (* tryLogCurrentException(where_) *)

#[global] Instance Effect_eq_dec : EqDecision Effect.
Proof. solve_decision. Defined.

(** The saving thread runs, has returned from [threadFunction], or has let
    an exception out of it (which ends the process by [std::terminate]). *)
Inductive ThreadStatus : Set :=
| Running
| Finished
| Terminated (e : exn).

(** ** The QueryLog object, with the locals of threadFunction *)

(** The fields [context] and [table] are left out: nothing in the header
    reads or writes them yet.  [flush_interval_milliseconds] is a
    [size_t]; the saving thread compares it with the milliseconds on the
    stopwatch and subtracts only when the difference is positive. *)

Record QueryLog : Set := mkQueryLog {
  database_name : string;
  table_name : string;
  flush_interval_milliseconds : Z;
  queue : ConcurrentBoundedQueue;
  data : list QueryLogElement;
  saving_thread : ThreadStatus;
  (* locals of threadFunction *)
  time_after_last_write : Stopwatch;
  first : bool;
  (* history of observable calls, oldest first *)
  trace : list Effect
}.

Definition set_queue (q : ConcurrentBoundedQueue) (s : QueryLog) : QueryLog :=
  mkQueryLog (database_name s) (table_name s) (flush_interval_milliseconds s)
    q (data s) (saving_thread s) (time_after_last_write s) (first s) (trace s).

Definition set_data (d : list QueryLogElement) (s : QueryLog) : QueryLog :=
  mkQueryLog (database_name s) (table_name s) (flush_interval_milliseconds s)
    (queue s) d (saving_thread s) (time_after_last_write s) (first s) (trace s).

Definition set_saving_thread (t : ThreadStatus) (s : QueryLog) : QueryLog :=
  mkQueryLog (database_name s) (table_name s) (flush_interval_milliseconds s)
    (queue s) (data s) t (time_after_last_write s) (first s) (trace s).

Definition set_time_after_last_write (w : Stopwatch) (s : QueryLog) : QueryLog :=
  mkQueryLog (database_name s) (table_name s) (flush_interval_milliseconds s)
    (queue s) (data s) (saving_thread s) w (first s) (trace s).

Definition set_first (b : bool) (s : QueryLog) : QueryLog :=
  mkQueryLog (database_name s) (table_name s) (flush_interval_milliseconds s)
    (queue s) (data s) (saving_thread s) (time_after_last_write s) b (trace s).

Definition emit (e : Effect) (s : QueryLog) : QueryLog :=
  mkQueryLog (database_name s) (table_name s) (flush_interval_milliseconds s)
    (queue s) (data s) (saving_thread s) (time_after_last_write s) (first s)
    (trace s ++ [e]).

(** ** The monad of the saving thread: state, exceptions and blocking *)

Inductive outcome (A : Type) : Type :=
| Normal (a : A)          (* the computation returned *)
| Raised (e : exn)        (* an exception is in flight *)
| Suspended.              (* the thread waits inside a blocking call *)
Arguments Normal {A} a.
Arguments Raised {A} e.
Arguments Suspended {A}.

Definition M (A : Type) : Type := QueryLog -> outcome A * QueryLog.

Definition ret {A : Type} (a : A) : M A := fun s => (Normal a, s).

Definition bind {A B : Type} (m : M A) (f : A -> M B) : M B := fun s =>
  match m s with
  | (Normal a, s') => f a s'
  | (Raised e, s') => (Raised e, s')
  | (Suspended, s') => (Suspended, s')
  end.

Declare Scope M_scope.
Delimit Scope M_scope with M.
Bind Scope M_scope with M.
Notation "x ← y ; z" := (bind y (fun x => z))
  (at level 20, y at level 100, z at level 200, only parsing) : M_scope.
Notation "' x ← y ; z" := (bind y (fun x => z))
  (at level 20, x pattern, y at level 100, z at level 200, only parsing) : M_scope.
Notation "x ;; z" := (bind x (fun _ => z))
  (at level 100, z at level 200, only parsing, right associativity) : M_scope.
Local Open Scope M_scope.

Definition gets {A : Type} (f : QueryLog -> A) : M A := fun s => (Normal (f s), s).
Definition modify (f : QueryLog -> QueryLog) : M unit := fun s => (Normal tt, f s).
Definition throw {A : Type} (e : exn) : M A := fun s => (Raised e, s).
Definition suspend {A : Type} : M A := fun s => (Suspended, s).

(** [try { body } catch (...) { handler }]. *)
Definition try_catch {A : Type} (body : M A) (handler : exn -> M A) : M A :=
  fun s =>
    match body s with
    | (Raised e, s') => handler e s'
    | r => r
    end.

(** A call that raises when the outside world says so. *)
Definition may_throw (failure : option exn) : M unit :=
  match failure with
  | Some e => throw e
  | None => ret tt
  end.

(** ** Primitive operations of the saving thread *)

Definition Stopwatch_restart (now : Z) : M unit :=
  modify (fun s => emit (Restarted now) (set_time_after_last_write {| start_ns := now |} s)).

Definition elapsed (now : Z) : M Z :=
  fun s => (Normal (Stopwatch_elapsed now (time_after_last_write s)), emit (Elapsed now) s).

Definition data_empty : M bool :=
  gets (fun s => match data s with [] => true | _ :: _ => false end).

Definition data_clear : M unit := modify (set_data []).

Definition data_push_back (failure : option exn) (element : QueryLogElement) : M unit :=
  may_throw failure ;;
  modify (fun s => set_data (data s ++ [element]) s).

Definition tryLogCurrentException (where_ : string) (e : exn) : M unit :=
  modify (emit (Logged where_ e)).

(** [queue.pop()]: waits while the queue is empty. *)
Definition pop (failure : option exn) : M QueryLogElement :=
  may_throw failure ;;
  q ← gets queue;
  match queue_pop q with
  | Done (x, q') => modify (fun s => emit Popped (set_queue q' s)) ;; ret x
  | WouldBlock => suspend
  end.

(** [queue.tryPop(element, timeout_ms)]: [element] is overwritten and
    [true] returned when an element arrives in time; otherwise [element]
    is left as it was and [false] is returned. *)
Definition tryPop (failure : option exn) (element : QueryLogElement) (timeout_ms : Z)
  : M (QueryLogElement * bool) :=
  modify (emit (TryPopped timeout_ms)) ;;
  may_throw failure ;;
  q ← gets queue;
  match queue_pop q with
  | Done (x, q') => modify (set_queue q') ;; ret (x, true)
  | WouldBlock => ret (element, false)
  end.

(** ** createBlock and flush *)

Definition PRETTY_FUNCTION_flush : string := "void DB::QueryLog::flush()".
Definition PRETTY_FUNCTION_threadFunction : string := "void DB::QueryLog::threadFunction()".

(** [createBlock()]: three freshly allocated columns; the allocations are
    the only thing in it that can raise. *)
Definition createBlock (failure : option exn) : M Block :=
  may_throw failure ;;
  ret [ mkColumn ColumnUInt8 [] DataTypeUInt8 "type";
         mkColumn ColumnUInt32 [] DataTypeDateTime "event_time";
         mkColumn ColumnUInt32 [] DataTypeDateTime "query_start_time" ].

(** [flush()]: the block is built and dropped (forming its rows and
    writing it is left as a TODO in the source), an exception is logged
    and swallowed, and [data] is cleared after the [try]. *)
Definition flush (failure : option exn) : M unit :=
  batch ← gets data;
  modify (emit (Flushed batch)) ;;
  try_catch
    (block ← createBlock failure; ret tt)
    (fun e => tryLogCurrentException PRETTY_FUNCTION_flush e) ;;
  data_clear.

(** ** threadFunction, one pass of its loop *)

(** What the outside world contributes to one pass. *)
Record ThreadEnv : Set := mkThreadEnv {
  clock_first : Z;                 (* the clock at [restart()] of the first pass *)
  clock_before_wait : Z;           (* the clock at [elapsed()] before [tryPop] *)
  queue_failure : option exn;      (* [pop]/[tryPop] raises *)
  push_back_failure : option exn;  (* [data.push_back] raises *)
  clock_after_wait : Z;            (* the clock at [elapsed()] before the periodic flush *)
  flush_failure : option exn;      (* building the block raises inside [flush] *)
  clock_restart : Z                (* the clock at [restart()] after the periodic flush *)
}.

Inductive LoopControl : Set := Continue | Break.

(** The body of the [try] block inside [while (true)]. *)
Definition threadFunction_try (env : ThreadEnv) : M LoopControl :=
  is_first ← gets first;
  (if is_first
   then Stopwatch_restart (clock_first env) ;; modify (set_first false)
   else ret tt) ;;
  empty ← data_empty;
  '(element, has_element) ←
    (if empty
     then element ← pop (queue_failure env); ret (element, true)
     else
       ns ← elapsed (clock_before_wait env);
       let milliseconds_elapsed := ns / 1000000 in
       interval ← gets flush_interval_milliseconds;
       if milliseconds_elapsed <? interval
       then tryPop (queue_failure env) default_element (interval - milliseconds_elapsed)
       else ret (default_element, false)) : M (QueryLogElement * bool);
  ctl ←
    (if has_element
     then
       (* if (element.type = QueryLogElement::SHUTDOWN): the assignment is
          performed and its value, converted to bool, is the condition *)
       let element := assign_type element SHUTDOWN in
       if Type_to_bool (type element)
       then flush (flush_failure env) ;; ret Break
       else data_push_back (push_back_failure env) element ;; ret Continue
     else ret Continue) : M LoopControl;
  match ctl with
  | Break => ret Break
  | Continue =>
      ns ← elapsed (clock_after_wait env);
      let milliseconds_elapsed := ns / 1000000 in
      interval ← gets flush_interval_milliseconds;
      (if interval <=? milliseconds_elapsed
       then flush (flush_failure env) ;; Stopwatch_restart (clock_restart env)
       else ret tt) ;;
      ret Continue
  end.

(** The [catch (...)] of the loop. *)
Definition threadFunction_catch (e : exn) : M LoopControl :=
  data_clear ;;
  tryLogCurrentException PRETTY_FUNCTION_threadFunction e ;;
  ret Continue.

Definition threadFunction_pass (env : ThreadEnv) : M LoopControl :=
  try_catch (threadFunction_try env) threadFunction_catch.

(** ** The facade: constructor, add, destructor *)

(** The constructor ([data.reserve] changes no contents) together with
    the saving thread's entry into [threadFunction]; [now] is the clock
    when the thread constructs its [Stopwatch] there. *)
Definition QueryLog_new (database_name_ table_name_ : string)
    (flush_interval_milliseconds_ : Z) (now : Z) : QueryLog :=
  {| database_name := database_name_;
     table_name := table_name_;
     flush_interval_milliseconds := flush_interval_milliseconds_;
     queue := ConcurrentBoundedQueue_new DBMS_QUERY_LOG_QUEUE_SIZE;
     data := [];
     saving_thread := Running;
     time_after_last_write := {| start_ns := now |};
     first := true;
     trace := [Restarted now] |}.

(** [add(element)]: [queue.push(element)], which may have to wait. *)
Definition add (element : QueryLogElement) (s : QueryLog) : Wait QueryLog :=
  match queue_push element (queue s) with
  | Done q' => Done (set_queue q' s)
  | WouldBlock => WouldBlock
  end.

(** The element the destructor builds: [QueryLogElement elem;
    elem.type = QueryLogElement::SHUTDOWN;]. *)
Definition shutdown_element : QueryLogElement :=
  assign_type default_element SHUTDOWN.

(** The destructor's first half: [queue.push(elem)]. *)
Definition destructor_push (s : QueryLog) : Wait QueryLog :=
  match queue_push shutdown_element (queue s) with
  | Done q' => Done (set_queue q' s)
  | WouldBlock => WouldBlock
  end.

(** The destructor's second half, [saving_thread.join()], returns once
    the thread has left [threadFunction]. *)
Definition join (s : QueryLog) : Wait unit :=
  match saving_thread s with
  | Finished => Done tt
  | Running | Terminated _ => WouldBlock
  end.

(** ** Schedules: producers and the saving thread interleaved *)

Inductive Event : Set :=
| Add (element : QueryLogElement)   (* a producer completes or retries [add] *)
| Destroy                           (* the destructor pushes the SHUTDOWN element *)
| Pass (env : ThreadEnv).           (* the saving thread runs one pass of its loop *)

Definition after_wait (w : Wait QueryLog) (s : QueryLog) : QueryLog :=
  match w with Done s' => s' | WouldBlock => s end.

Definition step (s : QueryLog) (ev : Event) : QueryLog :=
  match ev with
  | Add element => after_wait (add element s) s
  | Destroy => after_wait (destructor_push s) s
  | Pass env =>
      match saving_thread s with
      | Finished | Terminated _ => s
      | Running =>
          match threadFunction_pass env s with
          | (Normal Continue, s') => s'
          | (Normal Break, s') => set_saving_thread Finished s'
          | (Suspended, s') => s'
          | (Raised e, s') => set_saving_thread (Terminated e) s'
          end
      end
  end.

Definition run (schedule : list Event) (s : QueryLog) : QueryLog :=
  foldl step s schedule.

(** ** Reading the history of a run *)

(** The records that were in the accumulator when [flush()] was entered,
    over the whole history, oldest first. *)
Fixpoint flushed_records (tr : list Effect) : list QueryLogElement :=
  match tr with
  | [] => []
  | Flushed batch :: tr' => batch ++ flushed_records tr'
  | _ :: tr' => flushed_records tr'
  end.

(** Every record handed to [flush()] or waiting in the accumulator has the
    kind SHUTDOWN. *)
Definition all_marked_shutdown (s : QueryLog) : Prop :=
  Forall (fun r => type r = SHUTDOWN) (flushed_records (trace s) ++ data s).

(** Every record the object holds or has handed to [flush()], in the order
    of submission: flushed batches, then the accumulator, then the queue.
    A record is named by its [query_id], which no step of the saving
    thread changes. *)
Definition records_in_order (s : QueryLog) : list string :=
  query_id <$> (flushed_records (trace s) ++ data s ++ items (queue s)).

Definition queue_within_capacity (s : QueryLog) : Prop :=
  (length (items (queue s)) <= max_fill (queue s))%nat.

(** The elements a schedule offers to the queue, in order. *)
Fixpoint offered (schedule : list Event) : list QueryLogElement :=
  match schedule with
  | [] => []
  | Add element :: rest => element :: offered rest
  | Destroy :: rest => shutdown_element :: offered rest
  | Pass _ :: rest => offered rest
  end.

(** An observer of the history.  It does not look at the stopwatch of
    the object: it keeps, from the clock readings alone, the reading the
    flush deadline is measured from.  That is the first clock reading
    taken after the latest call of [flush()] (the call had returned by
    then); before the first flush it is the reading at which the thread
    last started its stopwatch. *)
Record Deadline : Set := mkDeadline {
  since : Z;               (* the reading the flush deadline is measured from *)
  latest : Z;              (* the latest clock reading *)
  measured : option Z;     (* the reading, when the latest call was [elapsed()] *)
  flushed_before : bool;   (* [flush()] has been entered at least once *)
  open_flush : bool        (* [flush()] was entered and no clock reading has followed *)
}.

Definition Deadline_init : Deadline :=
  {| since := 0; latest := 0; measured := None;
     flushed_before := false; open_flush := false |}.

Definition observe (d : Deadline) (ef : Effect) : Deadline :=
  match ef with
  | Restarted now =>
      {| since := if open_flush d || negb (flushed_before d) then now else since d;
         latest := now; measured := None;
         flushed_before := flushed_before d;
         open_flush := false |}
  | Elapsed now =>
      {| since := if open_flush d then now else since d;
         latest := now; measured := Some now;
         flushed_before := flushed_before d;
         open_flush := false |}
  | Flushed _ =>
      {| since := since d; latest := latest d; measured := None;
         flushed_before := true;
         open_flush := true |}
  | Popped | TryPopped _ | Logged _ _ =>
      {| since := since d; latest := latest d; measured := None;
         flushed_before := flushed_before d;
         open_flush := open_flush d |}
  end.

Definition observe_all (d : Deadline) (tr : list Effect) : Deadline :=
  foldl observe d tr.

(** Whole milliseconds between the reading the deadline is measured from
    and the reading [now]. *)
Definition milliseconds_at (d : Deadline) (now : Z) : Z :=
  (now - since d) / 1000000.

(** The clock never runs backwards and fits 64 bits. *)
Definition clock_step_ok (d : Deadline) (ef : Effect) : Prop :=
  match ef with
  | Restarted now | Elapsed now => latest d <= now < UInt64_modulus
  | _ => True
  end.

Fixpoint clock_monotone (d : Deadline) (tr : list Effect) : Prop :=
  match tr with
  | [] => True
  | ef :: tr' => clock_step_ok d ef /\ clock_monotone (observe d ef) tr'
  end.

(** What the rolling flush deadline asks of one call:
    - a timed wait on the queue directly follows a reading of the clock
      and is for what is left of the interval since the end of the
      previous flush, [max(0, flush_interval - elapsed)], of which some
      is left;
    - every call of [flush()] directly follows a reading of the clock, at
      which at least the interval has gone by since the end of the
      previous flush: in milliseconds as the loop counts them, and so in
      nanoseconds of the clock;
    - the next clock reading after a call of [flush()] is a restart of the
      stopwatch, not a reading of the time elapsed;
    - once something was flushed, the stopwatch is restarted only to close
      a flush. *)
Definition deadline_step_ok (interval : Z) (d : Deadline) (ef : Effect) : Prop :=
  match ef with
  | TryPopped timeout_ms =>
      match measured d with
      | Some now =>
          timeout_ms = Z.max 0 (interval - milliseconds_at d now) /\ 0 < timeout_ms
      | None => False
      end
  | Flushed _ =>
      match measured d with
      | Some now =>
          interval <= milliseconds_at d now /\
          interval * 1000000 <= now - since d
      | None => False
      end
  | Elapsed _ => open_flush d = false
  | Restarted _ => open_flush d = true \/ flushed_before d = false
  | Popped | Logged _ _ => True
  end.

Fixpoint deadline_respected (interval : Z) (d : Deadline) (tr : list Effect) : Prop :=
  match tr with
  | [] => True
  | ef :: tr' => deadline_step_ok interval d ef /\ deadline_respected interval (observe d ef) tr'
  end.

(** The call is not [flush()]; the call does not read the clock. *)
Definition no_flush (ef : Effect) : Prop :=
  match ef with
  | Flushed _ => False
  | _ => True
  end.

Definition no_reading (ef : Effect) : Prop :=
  match ef with
  | Restarted _ | Elapsed _ => False
  | _ => True
  end.

(** The observer [d] is in step with the object: the reading it measures
    the deadline from is the start of the object's stopwatch, no flush is
    left open, that reading lies between zero and the latest one, and
    after a flush the loop is past its first pass. *)
Definition in_step (s : QueryLog) (d : Deadline) : Prop :=
  time_after_last_write s = {| start_ns := since d |} /\
  open_flush d = false /\
  0 <= since d <= latest d /\
  (flushed_before d = true -> first s = false).

Definition deadline_invariant (interval : Z) (s : QueryLog) : Prop :=
  flush_interval_milliseconds s = interval /\
  (clock_monotone Deadline_init (trace s) ->
   deadline_respected interval Deadline_init (trace s) /\
   in_step s (observe_all Deadline_init (trace s))).

(** ** Sample inputs *)

Definition sample_record (id : string) : QueryLogElement :=
  {| type := QUERY_FINISH; event_time := 1700000010; query_start_time := 1700000009;
     query_duration_ms := 5; read_rows := 1; read_bytes := 2;
     result_rows := 3; result_bytes := 4; query := "SELECT 1";
     interface := HTTP; http_method := GET; ip_address := 2130706433;
     user := "default"; query_id := id |}.

(** A pass in which nothing raises and every clock reading is [now]. *)
Definition quiet_pass (now : Z) : Event :=
  Pass (mkThreadEnv now now None None now None now).

(** A pass at clock [now] in which building the block raises inside [flush]. *)
Definition failing_flush_pass (now : Z) (e : exn) : Event :=
  Pass (mkThreadEnv now now None None now (Some e) now).

Definition sample_QueryLog : QueryLog := QueryLog_new "system" "query_log" 100 0.

(** One record is submitted, 150 ms pass, and the destructor runs. *)
Definition sample_shutdown_schedule : list Event :=
  [ Add (sample_record "q1"); quiet_pass 5000000; quiet_pass 150000000;
    Destroy; quiet_pass 160000000; quiet_pass 300000000 ].

(** A flush fails at 150 ms; a second record is flushed at 300 ms. *)
Definition sample_failing_schedule : list Event :=
  [ Add (sample_record "q1"); quiet_pass 0;
    failing_flush_pass 150000000 (std_exception "std::bad_alloc");
    Add (sample_record "q2"); quiet_pass 300000000 ].

(** Two records arrive within one interval, a third one later. *)
Definition sample_deadline_schedule : list Event :=
  [ Add (sample_record "q1"); quiet_pass 0;
    Add (sample_record "q2"); quiet_pass 50000000;
    quiet_pass 120000000;
    Add (sample_record "q3"); quiet_pass 250000000 ].

(** A pass at clock [now] in which [pop]/[tryPop] raises. *)
Definition failing_pop_env (now : Z) (e : exn) : ThreadEnv :=
  mkThreadEnv now now (Some e) None now None now.

(** A queue of capacity one that is full. *)
Definition sample_full_QueryLog : QueryLog :=
  set_queue {| max_fill := 1; items := [sample_record "q0"] |} sample_QueryLog.

(** ** Further readings of a pass and of the history *)

(** [flush()] was entered with something to flush. *)
Definition flush_batch_nonempty (ef : Effect) : Prop :=
  match ef with
  | Flushed batch => batch <> []
  | _ => True
  end.

(** The number of calls of [tryLogCurrentException] in a history. *)
Fixpoint logged_count (tr : list Effect) : nat :=
  match tr with
  | [] => 0
  | Logged _ _ :: tr' => S (logged_count tr')
  | _ :: tr' => logged_count tr'
  end.

(** Some call of the pass is made to raise. *)
Definition env_raises (env : ThreadEnv) : bool :=
  match queue_failure env, push_back_failure env, flush_failure env with
  | None, None, None => false
  | _, _, _ => true
  end.

(** The number of passes of a schedule in which some call is made to raise. *)
Fixpoint raising_passes (schedule : list Event) : nat :=
  match schedule with
  | [] => 0
  | Pass env :: rest => (if env_raises env then 1 else 0) + raising_passes rest
  | _ :: rest => raising_passes rest
  end.

(** Neither the queue nor [data.push_back] is made to raise. *)
Definition keeps_records (ev : Event) : Prop :=
  match ev with
  | Pass env => queue_failure env = None /\ push_back_failure env = None
  | _ => True
  end.

(** The stopwatch the pass measures the deadline with: the one it
    restarts first when it is the first pass, the one it finds otherwise. *)
Definition deadline_stopwatch (env : ThreadEnv) (s : QueryLog) : Stopwatch :=
  if first s then {| start_ns := clock_first env |} else time_after_last_write s.

(** A timed wait on the queue is for some time, and for no more than the
    flush interval. *)
Definition wait_within (interval : Z) (ef : Effect) : Prop :=
  match ef with
  | TryPopped timeout_ms => 0 < timeout_ms <= interval
  | _ => True
  end.

(** A pass in which nothing raises and every clock reading is [now]. *)
Definition quiet_env (now : Z) : ThreadEnv :=
  mkThreadEnv now now None None now None now.

(** The writer holds one record in its accumulator, its stopwatch started
    at 0. *)
Definition sample_accumulating : QueryLog :=
  run [Add (sample_record "q1"); quiet_pass 0] sample_QueryLog.

(** The writer has been waiting with nothing accumulated since clock 0,
    and one record has just been queued. *)
Definition sample_idle_with_record : QueryLog :=
  run [quiet_pass 0; Add (sample_record "q1")] sample_QueryLog.

(** ** h3HexAreaM2 *)

Local Close Scope M_scope.

Module H3.

(** The error codes the function names. *)
Inductive ErrorCode : Set := ARGUMENT_OUT_OF_BOUND | ILLEGAL_TYPE_OF_ARGUMENT.

(** A call returns or throws a [DB::Exception]. *)
Inductive Result (A : Type) : Type :=
| Ok (a : A)
| Throw (message : string) (code : ErrorCode).
Arguments Ok {A} a.
Arguments Throw {A} message code.

(** The columns the function meets: its UInt8 argument and its Float64
    result. *)
Inductive IColumn : Set :=
| ColumnVector_UInt8 (data : list Z)
| ColumnVector_Float64 (data : list float).

(** A block by position. *)
Definition Block : Set := list IColumn.

(** [getUInt(row)] of a column: [None] stands for a row that is not there
    or a column that has no such method. *)
Definition getUInt (col : IColumn) (row : nat) : option Z :=
  match col with
  | ColumnVector_UInt8 data => data !! row
  | ColumnVector_Float64 _ => None
  end.

(** The conversion of a [UInt64] to the [int] parameter of [hexAreaM2]. *)
Definition UInt64_to_int (z : Z) : Z :=
  let r := z mod 2 ^ 32 in
  if r <? 2 ^ 31 then r else r - 2 ^ 32.

Definition getName : string := "h3HexAreaM2".

Section WithH3Library.

(** What the H3 library provides: [MAX_H3_RES] of its constants.h and
    [double hexAreaM2(int res)] of its h3api.h. *)
Variable MAX_H3_RES : Z.
Variable hexAreaM2 : Z -> float.

Definition out_of_bounds_message (resolution : Z) : string :=
  "The argument 'resolution' (" +:+ pretty resolution +:+ ") of function "
    +:+ getName
    +:+ " is out of bounds because the maximum resolution in H3 library is "
    +:+ pretty MAX_H3_RES.

(** The body of the [for] loop at one row. *)
Definition executeImpl_row (col_hindex : IColumn) (row : nat) (dst_data : list float)
  : option (Result (list float)) :=
  resolution ← getUInt col_hindex row;
  if MAX_H3_RES <? resolution
  then Some (Throw (out_of_bounds_message resolution) ARGUMENT_OUT_OF_BOUND)
  else
    let res := hexAreaM2 (UInt64_to_int resolution) in
    Some (Ok (<[row := res]> dst_data)).

(** [for (const auto row : ext::range(0, input_rows_count))]. *)
Fixpoint executeImpl_rows (col_hindex : IColumn) (rows : list nat) (dst_data : list float)
  : option (Result (list float)) :=
  match rows with
  | [] => Some (Ok dst_data)
  | row :: rows' =>
      match executeImpl_row col_hindex row dst_data with
      | Some (Ok dst_data') => executeImpl_rows col_hindex rows' dst_data'
      | r => r
      end
  end.

(** [executeImpl(block, arguments, result, input_rows_count)]; [None]
    stands for an access outside the block or the argument list. *)
Definition executeImpl (block : Block) (arguments : list nat) (result : nat)
    (input_rows_count : nat) : option (Result Block) :=
  argument ← arguments !! 0%nat;
  col_hindex ← block !! argument;
  let dst_data := replicate input_rows_count 0%float in
  r ← executeImpl_rows col_hindex (seq 0 input_rows_count) dst_data;
  match r with
  | Throw message code => Some (Throw message code)
  | Ok dst =>
      if decide (result < length block)%nat
      then Some (Ok (<[result := ColumnVector_Float64 dst]> block))
      else None
  end.

End WithH3Library.

(** Sample inputs: a stand-in for the area table of the H3 library, and a
    block with a UInt8 column and the slot of the result. *)
Definition sample_hexAreaM2 (res : Z) : float :=
  PrimFloat.of_uint63 (Uint63.of_Z (1000 - res)).

Definition sample_block (resolutions : list Z) : Block :=
  [ColumnVector_UInt8 resolutions; ColumnVector_Float64 []].

End H3.

(** * Properties *)

#[local] Set Warnings "-clear-no-such-hyp".

(** ** Running the monad *)

Ltac unfold_M :=
  unfold threadFunction_pass, threadFunction_try, threadFunction_catch, flush,
    createBlock, pop, tryPop, data_push_back, data_clear, data_empty,
    tryLogCurrentException, elapsed, Stopwatch_restart, may_throw, try_catch,
    bind, ret, gets, modify, throw, suspend in *.

(** Splits a pass of the loop into its control-flow paths: case analysis
    on what the pass branches on, innermost first, and never on a
    computation that has not run yet. *)
Ltac split_once :=
  match goal with
  | |- context [match ?x with _ => _ end] =>
      lazymatch x with
      | context [match _ with _ => _ end] => fail
      | _ => idtac
      end;
      let T := type of x in
      lazymatch T with
      | prod (outcome _) _ => fail
      | _ => destruct x eqn:?
      end
  end.

Ltac use_equations :=
  repeat match goal with
         | H : ?t = _ |- context [?t] => rewrite !H
         end.

Ltac split_pass :=
  unfold_M; cbn; repeat (split_once; cbn); intros; simplify_eq/=; use_equations.

Lemma flush_unfold failure s :
  flush failure s =
    (Normal tt,
     set_data []
       (match failure with
        | Some e => emit (Logged PRETTY_FUNCTION_flush e) (emit (Flushed (data s)) s)
        | None => emit (Flushed (data s)) s
        end)).
Proof. unfold_M. destruct failure; reflexivity. Qed.

Lemma run_cons ev schedule s : run (ev :: schedule) s = run schedule (step s ev).
Proof. reflexivity. Qed.

Lemma destructor_push_add s : destructor_push s = add shutdown_element s.
Proof. reflexivity. Qed.

(** ** The state of the saving thread *)

Lemma pass_outcome env s ctl s' :
  threadFunction_pass env s = (ctl, s') -> ctl = Normal Continue \/ ctl = Suspended.
Proof. split_pass; intuition congruence. Qed.

(** A property kept by [add] and by a pass of the loop is kept by every
    step of a schedule, hence by every run. *)
Section Invariant.
Variable P : QueryLog -> Prop.
Hypothesis P_add : forall element s s', add element s = Done s' -> P s -> P s'.
Hypothesis P_pass : forall env s ctl s', threadFunction_pass env s = (ctl, s') -> P s -> P s'.

Lemma step_invariant s ev : P s -> P (step s ev).
Proof.
  intros Hs. destruct ev as [element| |env]; unfold step, after_wait.
  - destruct (add element s) eqn:Hadd; eauto.
  - rewrite destructor_push_add.
    destruct (add shutdown_element s) eqn:Hadd; eauto.
  - destruct (saving_thread s); try exact Hs.
    destruct (threadFunction_pass env s) as [ctl s'] eqn:Hpass.
    pose proof (P_pass _ _ _ _ Hpass Hs) as Hs'.
    destruct (pass_outcome _ _ _ _ Hpass) as [-> | ->]; exact Hs'.
Qed.

Lemma run_invariant schedule s : P s -> P (run schedule s).
Proof.
  revert s. induction schedule as [|ev schedule IH]; intros s Hs; [exact Hs|].
  rewrite run_cons. apply IH, step_invariant, Hs.
Qed.
End Invariant.

Lemma add_unfold element s s' :
  add element s = Done s' ->
  (length (items (queue s)) < max_fill (queue s))%nat /\
  s' = set_queue {| max_fill := max_fill (queue s); items := items (queue s) ++ [element] |} s.
Proof.
  unfold add, queue_push. case_decide; intros; simplify_eq; done.
Qed.

Lemma pass_saving_thread env s ctl s' :
  threadFunction_pass env s = (ctl, s') -> saving_thread s' = saving_thread s.
Proof. split_pass; reflexivity. Qed.

Lemma run_saving_thread schedule s : saving_thread (run schedule s) = saving_thread s.
Proof.
  apply (run_invariant (fun s' => saving_thread s' = saving_thread s)); [| |done].
  - intros element s1 s2 [_ ->]%add_unfold. done.
  - intros env s1 ctl s2 ->%pass_saving_thread. done.
Qed.

(** ** The kind of the accumulated records *)

Lemma flushed_records_app tr1 tr2 :
  flushed_records (tr1 ++ tr2) = flushed_records tr1 ++ flushed_records tr2.
Proof.
  induction tr1 as [|ef tr1 IH]; [reflexivity|].
  destruct ef; cbn; rewrite ?IH, ?app_assoc; reflexivity.
Qed.

Lemma pass_marked_shutdown env s ctl s' :
  threadFunction_pass env s = (ctl, s') ->
  all_marked_shutdown s -> all_marked_shutdown s'.
Proof.
  unfold all_marked_shutdown.
  split_pass;
    repeat match goal with H : Forall _ _ |- _ => revert H end;
    rewrite ?flushed_records_app; cbn;
    rewrite ?app_nil_r, ?Forall_app, ?Forall_cons, ?Forall_app, ?Forall_cons, ?Forall_nil;
    cbn; naive_solver.
Qed.

Lemma run_marked_shutdown schedule s :
  all_marked_shutdown s -> all_marked_shutdown (run schedule s).
Proof.
  apply (run_invariant all_marked_shutdown).
  - intros element s1 s2 [_ ->]%add_unfold Hs1. exact Hs1.
  - apply pass_marked_shutdown.
Qed.

(** ** flush and createBlock *)

(** C9: every call of [flush()] returns normally and leaves the
    accumulator [data] empty, whether building the block succeeded or
    raised; nothing but [data] and the history is touched. *)
Theorem flush_always_clears_data (failure : option exn) (s : QueryLog) :
  exists s',
    flush failure s = (Normal tt, s') /\
    data s' = [] /\
    queue s' = queue s /\
    saving_thread s' = saving_thread s /\
    time_after_last_write s' = time_after_last_write s.
Proof.
  rewrite flush_unfold. eexists; split; [reflexivity|].
  destruct failure; done.
Qed.

(** C10: [createBlock()], when it returns, returns the same block whatever
    the object holds: exactly three columns, named type, event_time and
    query_start_time, each without rows; it reads and changes nothing of
    the object, so no accumulated record reaches the block and ten of the
    fields of [QueryLogElement] have no column. *)
Theorem createBlock_three_empty_columns (failure : option exn) (s : QueryLog) :
  let block := [ mkColumn ColumnUInt8 [] DataTypeUInt8 "type";
                 mkColumn ColumnUInt32 [] DataTypeDateTime "event_time";
                 mkColumn ColumnUInt32 [] DataTypeDateTime "query_start_time" ] in
  createBlock failure s =
    (match failure with Some e => Raised e | None => Normal block end, s) /\
  length block = 3%nat /\
  name <$> block = ["type"; "event_time"; "query_start_time"] /\
  Forall (fun c => column_rows c = []) block.
Proof.
  cbn. split; [|repeat split; repeat constructor].
  unfold_M. destruct failure; reflexivity.
Qed.

(** ** The shutdown test of threadFunction *)

(** C1 (the code departs from it): with an idle accumulator and nothing
    raising, the pass that pops an element from the queue, of whatever
    kind, ends with [Continue], never with [Break], and the element has
    joined the records of the accumulator with its kind overwritten by
    SHUTDOWN.  At the element the destructor pushes this is the failing
    input of the claim: the sentinel is accumulated like a record, no
    final flush is made and the loop goes on. *)
Theorem threadFunction_accumulates_the_shutdown_element
    (element : QueryLogElement) (rest : list QueryLogElement)
    (c1 c2 c3 c4 : Z) (fl : option exn) (s : QueryLog) :
  let env := mkThreadEnv c1 c2 None None c3 fl c4 in
  let s0 := set_data []
              (set_queue {| max_fill := max_fill (queue s); items := element :: rest |} s) in
  exists s',
    threadFunction_pass env s0 = (Normal Continue, s') /\
    items (queue s') = rest /\
    saving_thread s' = saving_thread s /\
    flushed_records (trace s') ++ data s'
      = flushed_records (trace s) ++ [assign_type element SHUTDOWN].
Proof.
  cbn. destruct (threadFunction_pass _ _) as [ctl s'] eqn:Hpass.
  revert Hpass. split_pass; eexists; (split; [reflexivity|]); cbn;
    rewrite ?flushed_records_app; cbn; rewrite ?app_nil_r; done.
Qed.

(** C3 (the code departs from it): whatever is submitted and however
    producers, destructor and saving thread are interleaved, the saving
    thread is still running, so the [join()] of the destructor does not
    return: the stopped state is never reached. *)
Theorem saving_thread_never_finishes
    (schedule : list Event) (db tbl : string) (interval now : Z) :
  let s := run schedule (QueryLog_new db tbl interval now) in
  saving_thread s = Running /\ join s = WouldBlock.
Proof.
  cbn. unfold join. rewrite run_saving_thread. done.
Qed.

(** C2 (the code departs from it): in every run, every record that was
    handed to [flush()] or waits in the accumulator has the kind SHUTDOWN;
    in the sample run a QUERY_FINISH record is submitted, then the
    destructor runs: the record is flushed only as a copy marked SHUTDOWN,
    the shutdown element is flushed as if it were a record, and the
    saving thread is still running. *)
Theorem flushed_records_are_marked_shutdown :
  (forall schedule db tbl interval now,
     all_marked_shutdown (run schedule (QueryLog_new db tbl interval now))) /\
  (let s := run sample_shutdown_schedule sample_QueryLog in
   (flushed_records (trace s)
      = [assign_type (sample_record "q1") SHUTDOWN; shutdown_element] /\
    (sample_record "q1" ∉ flushed_records (trace s)) /\
    data s = [] /\ items (queue s) = [] /\
    saving_thread s = Running)).
Proof.
  split.
  - intros. apply run_marked_shutdown. unfold all_marked_shutdown. cbn. constructor.
  - vm_compute. repeat split.
    intros Hin. by repeat (apply elem_of_cons in Hin as [Hin|Hin]; [discriminate Hin|]);
      apply elem_of_nil in Hin.
Qed.

(** ** Exceptions *)

Lemma run_never_terminated schedule s e :
  saving_thread s = Running -> saving_thread (run schedule s) <> Terminated e.
Proof. intros Hs. rewrite run_saving_thread, Hs. discriminate. Qed.

Lemma try_raises_from_queue_or_push_back env s e s1 :
  threadFunction_try env s = (Raised e, s1) ->
  queue_failure env = Some e \/ push_back_failure env = Some e.
Proof. split_pass; auto. Qed.

Lemma try_raises_when_pop_raises env s e :
  data s = [] -> queue_failure env = Some e ->
  exists s1, threadFunction_try env s = (Raised e, s1).
Proof. intros Hdata Hfail. revert Hdata Hfail. split_pass; eauto. Qed.

Lemma try_raises_when_push_back_raises env s e x rest :
  data s = [] -> items (queue s) = x :: rest ->
  queue_failure env = None -> push_back_failure env = Some e ->
  exists s1, threadFunction_try env s = (Raised e, s1).
Proof.
  intros Hdata Hitems Hq Hp. revert Hdata Hq Hp.
  split_pass; eauto;
    match goal with H : queue_pop _ = WouldBlock |- _ =>
      unfold queue_pop in H; rewrite Hitems in H; discriminate H
    end.
Qed.

(** C5: an exception that leaves the body of the loop is caught by the
    loop: the accumulator is cleared, the exception is reported to
    [tryLogCurrentException] and the pass ends with [Continue]; such an
    exception comes from popping or from accumulating, and one raised
    there does reach the catch.  An exception raised inside [flush()] is
    caught there, reported, and the accumulator is cleared just the same.
    No pass ends with an exception in flight, so the saving thread is
    never terminated by one, and [add] has no exceptional result at all:
    it completes or waits. *)
Theorem exceptions_stay_in_the_saving_thread :
  (forall env s e s1,
     threadFunction_try env s = (Raised e, s1) ->
     (queue_failure env = Some e \/ push_back_failure env = Some e) /\
     threadFunction_pass env s
       = (Normal Continue,
          emit (Logged PRETTY_FUNCTION_threadFunction e) (set_data [] s1))) /\
  (forall env s e,
     data s = [] -> queue_failure env = Some e ->
     exists s1, threadFunction_try env s = (Raised e, s1)) /\
  (forall env s e x rest,
     data s = [] -> items (queue s) = x :: rest ->
     queue_failure env = None -> push_back_failure env = Some e ->
     exists s1, threadFunction_try env s = (Raised e, s1)) /\
  (forall e s,
     flush (Some e) s
       = (Normal tt,
          set_data [] (emit (Logged PRETTY_FUNCTION_flush e) (emit (Flushed (data s)) s)))) /\
  (forall env s e s', threadFunction_pass env s <> (Raised e, s')) /\
  (forall schedule db tbl interval now e,
     saving_thread (run schedule (QueryLog_new db tbl interval now)) <> Terminated e) /\
  (forall element s,
     add element s = WouldBlock \/
     exists q', add element s = Done (set_queue q' s)).
Proof.
  split; [|split; [|split; [|split; [|split; [|split]]]]].
  - intros env s e s1 Htry. split; [by eapply try_raises_from_queue_or_push_back|].
    unfold threadFunction_pass, try_catch. rewrite Htry. reflexivity.
  - apply try_raises_when_pop_raises.
  - apply try_raises_when_push_back_raises.
  - intros e s. apply flush_unfold.
  - intros env s e s' Hpass.
    destruct (pass_outcome _ _ _ _ Hpass) as [?|?]; discriminate.
  - intros. by apply run_never_terminated.
  - intros element s. unfold add. destruct (queue_push _ _); eauto.
Qed.

(** ** The order of the records *)

Lemma queue_pop_Done q x q' :
  queue_pop q = Done (x, q') -> items q = x :: items q' /\ max_fill q' = max_fill q.
Proof. unfold queue_pop. destruct (items q) eqn:Hi; intros; simplify_eq/=; done. Qed.

Ltac use_queue_pop :=
  repeat match goal with
         | H : queue_pop _ = Done _ |- _ => apply queue_pop_Done in H as [? ?]
         end.

Ltac flatten_lists :=
  repeat progress (rewrite ?flushed_records_app, ?fmap_app, ?fmap_cons, ?fmap_nil,
                     ?app_nil_r, <- ?app_assoc; cbn).

Ltac solve_sublist :=
  solve [ reflexivity
        | apply sublist_nil_l
        | apply sublist_skip; solve_sublist
        | apply sublist_app; [reflexivity | solve_sublist]
        | apply sublist_cons; solve_sublist
        | apply sublist_inserts_l; solve_sublist ].

Lemma pass_records_in_order env s ctl s' :
  threadFunction_pass env s = (ctl, s') ->
  records_in_order s' `sublist_of` records_in_order s.
Proof.
  unfold records_in_order.
  split_pass; use_queue_pop; use_equations; flatten_lists; solve_sublist.
Qed.

Lemma add_records_in_order element s s' :
  add element s = Done s' ->
  records_in_order s' = records_in_order s ++ [query_id element].
Proof.
  intros [_ ->]%add_unfold. unfold records_in_order. cbn.
  by rewrite !fmap_app, <- !app_assoc.
Qed.

Lemma step_records_in_order s ev :
  records_in_order (step s ev)
    `sublist_of` records_in_order s ++ (query_id <$> offered [ev]).
Proof.
  destruct ev as [element| |env]; unfold step, after_wait; cbn [offered fmap list_fmap].
  - destruct (add element s) eqn:Hadd.
    + by rewrite (add_records_in_order _ _ _ Hadd).
    + by apply sublist_inserts_r.
  - rewrite destructor_push_add. destruct (add shutdown_element s) eqn:Hadd.
    + by rewrite (add_records_in_order _ _ _ Hadd).
    + by apply sublist_inserts_r.
  - rewrite app_nil_r. destruct (saving_thread s); try reflexivity.
    destruct (threadFunction_pass env s) as [ctl s'] eqn:Hpass.
    pose proof (pass_records_in_order _ _ _ _ Hpass) as Hsub.
    destruct (pass_outcome _ _ _ _ Hpass) as [-> | ->]; exact Hsub.
Qed.

Lemma run_records_in_order schedule s :
  records_in_order (run schedule s)
    `sublist_of` records_in_order s ++ (query_id <$> offered schedule).
Proof.
  revert s. induction schedule as [|ev schedule IH]; intros s.
  - cbn. by rewrite app_nil_r.
  - rewrite run_cons. etrans; [apply IH|].
    replace (offered (ev :: schedule)) with (offered [ev] ++ offered schedule)
      by (destruct ev; reflexivity).
    rewrite fmap_app, app_assoc. apply sublist_app; [|reflexivity].
    apply step_records_in_order.
Qed.

(** C6: when building the block raises inside [flush()], the call still
    returns with the accumulator cleared; and in every run whose
    submitted records have distinct query ids, the records of a batch
    whose flush failed are in no later batch, nor in the accumulator, nor
    in the queue: they are dropped, not retried. *)
Theorem failed_flush_batch_is_dropped :
  (forall e s, exists s',
     flush (Some e) s = (Normal tt, s') /\ data s' = [] /\
     trace s' = trace s ++ [Flushed (data s); Logged PRETTY_FUNCTION_flush e]) /\
  (forall schedule db tbl interval now pre batch e mid batch' post,
     let s := run schedule (QueryLog_new db tbl interval now) in
     NoDup (query_id <$> offered schedule) ->
     trace s = pre ++ [Flushed batch; Logged PRETTY_FUNCTION_flush e]
                   ++ mid ++ [Flushed batch'] ++ post ->
     forall r, r ∈ batch -> (r ∉ batch') /\ (r ∉ data s) /\ (r ∉ items (queue s))).
Proof.
  split.
  - intros e s. rewrite flush_unfold. eexists. split; [reflexivity|].
    split; [reflexivity|]. cbn. by rewrite <- app_assoc.
  - intros schedule db tbl interval now pre batch e mid batch' post s Hids Htrace r Hr.
    pose proof (run_records_in_order schedule (QueryLog_new db tbl interval now)) as Hsub.
    change (records_in_order (QueryLog_new db tbl interval now)) with (@nil string) in Hsub.
    rewrite app_nil_l in Hsub. fold s in Hsub.
    pose proof (sublist_NoDup _ _ Hids Hsub) as Hnodup.
    unfold records_in_order in Hnodup. apply NoDup_fmap_1 in Hnodup.
    rewrite Htrace, !flushed_records_app in Hnodup. cbn in Hnodup.
    rewrite !app_nil_r, <- !app_assoc in Hnodup.
    apply NoDup_app in Hnodup as (_ & _ & Hnodup).
    apply NoDup_app in Hnodup as (_ & Hrest & _).
    specialize (Hrest r Hr). rewrite !elem_of_app in Hrest. tauto.
Qed.

(** ** The bounded queue *)

Lemma pass_queue env s ctl s' :
  threadFunction_pass env s = (ctl, s') ->
  queue s' = queue s \/ exists x, queue_pop (queue s) = Done (x, queue s').
Proof. split_pass; eauto. Qed.

Lemma run_queue_within_capacity schedule s :
  queue_within_capacity s -> queue_within_capacity (run schedule s).
Proof.
  apply (run_invariant queue_within_capacity); unfold queue_within_capacity.
  - intros element s1 s2 [Hlt ->]%add_unfold _. cbn. rewrite length_app. cbn. lia.
  - intros env s1 ctl s2 [-> | [x [Hitems Hmax]%queue_pop_Done]]%pass_queue Hs1; [done|].
    rewrite Hitems in Hs1. cbn in Hs1. lia.
Qed.

Lemma run_max_fill schedule s : max_fill (queue (run schedule s)) = max_fill (queue s).
Proof.
  apply (run_invariant (fun s' => max_fill (queue s') = max_fill (queue s))); [| |done].
  - intros element s1 s2 [_ ->]%add_unfold Hs1. exact Hs1.
  - intros env s1 ctl s2 [-> | [x [_ Hmax]%queue_pop_Done]]%pass_queue Hs1; congruence.
Qed.

(** C7: the queue of a [QueryLog] is built with capacity 1024, and no run
    changes the capacity or fills the queue beyond it.  [add] has two
    results only: with room in the queue it inserts the element at the
    back at once, leaving everything else alone; with the queue at
    capacity the caller waits, and after the saving thread has popped an
    element the same [add] goes through.  Elements leave at the front, and
    over a whole run what the object holds or has flushed is in the order
    of submission. *)
Theorem queue_capacity_and_add :
  (forall db tbl interval now,
     max_fill (queue (QueryLog_new db tbl interval now)) = 1024%nat) /\
  (forall schedule s, max_fill (queue (run schedule s)) = max_fill (queue s)) /\
  (forall schedule db tbl interval now,
     (length (items (queue (run schedule (QueryLog_new db tbl interval now)))) <= 1024)%nat) /\
  (forall element s,
     (length (items (queue s)) < max_fill (queue s))%nat ->
     add element s
       = Done (set_queue {| max_fill := max_fill (queue s);
                            items := items (queue s) ++ [element] |} s)) /\
  (forall element s,
     (max_fill (queue s) <= length (items (queue s)))%nat ->
     add element s = WouldBlock) /\
  (forall element s x q',
     (length (items (queue s)) <= max_fill (queue s))%nat ->
     queue_pop (queue s) = Done (x, q') ->
     exists s', add element (set_queue q' s) = Done s') /\
  (forall q x q', queue_pop q = Done (x, q') -> items q = x :: items q') /\
  (forall schedule db tbl interval now,
     records_in_order (run schedule (QueryLog_new db tbl interval now))
       `sublist_of` (query_id <$> offered schedule)).
Proof.
  split; [|split; [|split; [|split; [|split; [|split; [|split]]]]]].
  - reflexivity.
  - apply run_max_fill.
  - intros schedule db tbl interval now.
    pose proof (run_queue_within_capacity schedule (QueryLog_new db tbl interval now)) as H.
    unfold queue_within_capacity in H. rewrite run_max_fill in H. apply H. cbn. lia.
  - intros element s Hroom. unfold add, queue_push. by rewrite decide_True.
  - intros element s Hfull. unfold add, queue_push. rewrite decide_False by lia. done.
  - intros element s x q' Hcap [Hitems Hmax]%queue_pop_Done.
    unfold add, queue_push. cbn. rewrite decide_True; [eauto|].
    rewrite Hitems in Hcap. cbn in Hcap. lia.
  - intros q x q' [Hitems _]%queue_pop_Done. exact Hitems.
  - intros schedule db tbl interval now.
    apply (run_records_in_order schedule (QueryLog_new db tbl interval now)).
Qed.

(** ** The flush deadline *)

Lemma clock_monotone_app d tr1 tr2 :
  clock_monotone d (tr1 ++ tr2)
  <-> clock_monotone d tr1 /\ clock_monotone (observe_all d tr1) tr2.
Proof.
  revert d. induction tr1 as [|ef tr1 IH]; intros d; cbn; [tauto|].
  rewrite IH. tauto.
Qed.

Lemma deadline_respected_app interval d tr1 tr2 :
  deadline_respected interval d (tr1 ++ tr2)
  <-> deadline_respected interval d tr1 /\ deadline_respected interval (observe_all d tr1) tr2.
Proof.
  revert d. induction tr1 as [|ef tr1 IH]; intros d; cbn; [tauto|].
  rewrite IH. tauto.
Qed.

Lemma observe_all_app d tr1 tr2 :
  observe_all d (tr1 ++ tr2) = observe_all (observe_all d tr1) tr2.
Proof. apply foldl_app. Qed.

Lemma interval_in_nanoseconds interval since now :
  interval <= (now - since) / 1000000 -> interval * 1000000 <= now - since.
Proof.
  intros Hi. pose proof (Z.mul_div_le (now - since) 1000000). nia.
Qed.

Ltac to_Prop :=
  repeat match goal with
         | H : (_ <? _) = true |- _ => apply Z.ltb_lt in H
         | H : (_ <? _) = false |- _ => apply Z.ltb_ge in H
         | H : (_ <=? _) = true |- _ => apply Z.leb_le in H
         | H : (_ <=? _) = false |- _ => apply Z.leb_gt in H
         end.

(** Under a clock that does not run backwards the unsigned difference of
    the stopwatch is the difference of the readings. *)
Ltac no_wrap :=
  repeat match goal with
         | H : context [(?a - ?b) `mod` UInt64_modulus] |- _ =>
             rewrite (Z.mod_small (a - b) UInt64_modulus) in H by lia
         | |- context [(?a - ?b) `mod` UInt64_modulus] =>
             rewrite (Z.mod_small (a - b) UInt64_modulus) by lia
         end.

Lemma pass_deadline env s ctl s' :
  threadFunction_pass env s = (ctl, s') ->
  exists new,
    trace s' = trace s ++ new /\
    flush_interval_milliseconds s' = flush_interval_milliseconds s /\
    forall d,
      in_step s d ->
      clock_monotone d new ->
      deadline_respected (flush_interval_milliseconds s) d new /\
      in_step s' (observe_all d new).
Proof.
  split_pass.
  all: eexists; split;
    [rewrite <- ?app_assoc; cbn; first [reflexivity | symmetry; apply app_nil_r]|];
    split; [reflexivity|].
  all: intros [si la me fb op]; unfold in_step;
    cbn; unfold milliseconds_at, Stopwatch_elapsed in *; cbn.
  all: intros; to_Prop.
  all: repeat match goal with H : _ /\ _ |- _ => destruct H end; subst.
  all: repeat match goal with
              | H : time_after_last_write _ = _ |- _ => rewrite H in *; clear H
              end.
  all: cbn in *.
  all: destruct fb; cbn in *;
    try match goal with H : true = true -> _ |- _ => specialize (H eq_refl) end;
    try congruence.
  all: no_wrap.
  all: repeat match goal with
              | |- _ /\ _ => split
              | |- True => exact I
              | |- _ -> _ => intros
              end.
  all: try reflexivity; try assumption; try lia; auto.
  all: try (apply interval_in_nanoseconds; lia).
Qed.

Lemma run_deadline_invariant schedule interval s :
  deadline_invariant interval s -> deadline_invariant interval (run schedule s).
Proof.
  apply (run_invariant (deadline_invariant interval)).
  - intros element s1 s2 [_ ->]%add_unfold Hs1. exact Hs1.
  - intros env s1 ctl s2 Hpass [Hint Hs1]. unfold deadline_invariant.
    destruct (pass_deadline _ _ _ _ Hpass) as (new & -> & -> & Hnew).
    split; [exact Hint|].
    rewrite clock_monotone_app, deadline_respected_app, observe_all_app.
    intros [Hclock1 Hclock2]. destruct (Hs1 Hclock1) as [Hd1 Hstep1].
    rewrite Hint in Hnew. destruct (Hnew _ Hstep1 Hclock2) as [Hd2 Hstep2]. done.
Qed.

Lemma new_deadline_invariant db tbl interval now :
  deadline_invariant interval (QueryLog_new db tbl interval now).
Proof.
  split; [reflexivity|]. cbn. unfold in_step. cbn. intros [[? ?] _].
  repeat split; try done; try lia; auto.
Qed.

Lemma pass_with_records_does_not_block env s ctl s' :
  data s <> [] -> threadFunction_pass env s = (ctl, s') -> ctl = Normal Continue.
Proof. intros Hdata. revert Hdata. split_pass; done. Qed.

(** Between the restart that closed a flush and the next reading that is
    followed by a flush, the reading the deadline is measured from stays
    that restart. *)
Lemma since_stays_until_the_next_flush interval rest :
  forall d t2 b2 post,
    open_flush d = false -> flushed_before d = true ->
    Forall no_flush rest ->
    deadline_respected interval d (rest ++ Elapsed t2 :: Flushed b2 :: post) ->
    interval * 1000000 <= t2 - since d.
Proof.
  induction rest as [|ef rest IH]; intros d t2 b2 post Hopen Hflushed Hrest Hok.
  - cbn in Hok. rewrite Hopen in Hok. tauto.
  - apply Forall_cons in Hrest as [Hef Hrest]. destruct Hok as [Hstep Hok].
    destruct ef; cbn in Hef, Hstep; try done;
      try (apply IH in Hok; cbn in *; rewrite ?Hopen in *; done).
    destruct Hstep; congruence.
Qed.

(** After a flush the next clock reading is a restart, and the flush
    after it is no sooner than one interval later. *)
Lemma next_flush_waits_for_the_interval interval mid :
  forall d t2 b2 post,
    open_flush d = true -> flushed_before d = true ->
    Forall no_flush mid ->
    deadline_respected interval d (mid ++ Elapsed t2 :: Flushed b2 :: post) ->
    exists quiet t1 rest,
      mid = quiet ++ Restarted t1 :: rest /\
      Forall no_reading quiet /\
      interval * 1000000 <= t2 - t1.
Proof.
  induction mid as [|ef mid IH]; intros d t2 b2 post Hopen Hflushed Hmid Hok.
  - cbn in Hok. destruct Hok as [Hstep _]. congruence.
  - apply Forall_cons in Hmid as [Hef Hmid]. destruct Hok as [Hstep Hok].
    destruct ef; cbn in Hef, Hstep; try done; try congruence.
    + exists [], now, mid. split; [reflexivity|]. split; [constructor|].
      apply since_stays_until_the_next_flush in Hok; try done.
      cbn in Hok. by rewrite Hopen in Hok.
    + destruct (IH (observe d Popped) _ _ _ Hopen Hflushed Hmid Hok)
        as (quiet & t1 & rest & -> & Hquiet & Hgap).
      exists (Popped :: quiet), t1, rest. split; [reflexivity|]. split; [by constructor|done].
    + destruct (IH (observe d (TryPopped timeout_ms)) _ _ _ Hopen Hflushed Hmid Hok)
        as (quiet & t1 & rest & -> & Hquiet & Hgap).
      exists (TryPopped timeout_ms :: quiet), t1, rest.
      split; [reflexivity|]. split; [by constructor|done].
    + destruct (IH (observe d (Logged where_ e)) _ _ _ Hopen Hflushed Hmid Hok)
        as (quiet & t1 & rest & -> & Hquiet & Hgap).
      exists (Logged where_ e :: quiet), t1, rest.
      split; [reflexivity|]. split; [by constructor|done].
Qed.

(** C4: in every run in which the clock never runs backwards, the flush
    deadline is a rolling window measured from the end of the previous
    flush.  The observer takes that end from the clock readings of the
    history alone (the first reading after the flush; before any flush,
    the start of the thread's stopwatch), never from the stopwatch of the
    object.  Then:
    - every timed wait on the queue is for [max(0, flush_interval -
      elapsed)] milliseconds, and every call of [flush()] follows a
      reading at which at least the interval has elapsed; no run contains
      a flush outside this rule, the one on shutdown included;
    - every flush is closed by a restart of the stopwatch before any
      other reading of the clock, no flush is left open at the end of a
      run, and the stopwatch of the object starts at the reading the
      observer measures from;
    - of two consecutive flushes, the second begins at least
      [flush_interval] milliseconds after the restart that closed the
      first;
    - with records in the accumulator a pass never waits without a
      bound. *)
Theorem flush_deadline_is_a_rolling_window
    (schedule : list Event) (db tbl : string) (interval now : Z) :
  let s := run schedule (QueryLog_new db tbl interval now) in
  let d := observe_all Deadline_init (trace s) in
  clock_monotone Deadline_init (trace s) ->
  deadline_respected interval Deadline_init (trace s) /\
  (open_flush d = false /\ time_after_last_write s = {| start_ns := since d |}) /\
  (forall pre b1 mid t2 b2 post,
     trace s = pre ++ Flushed b1 :: mid ++ Elapsed t2 :: Flushed b2 :: post ->
     Forall no_flush mid ->
     exists quiet t1 rest,
       mid = quiet ++ Restarted t1 :: rest /\
       Forall no_reading quiet /\
       interval * 1000000 <= t2 - t1) /\
  (forall env ctl s', data s <> [] -> threadFunction_pass env s = (ctl, s') ->
                      ctl = Normal Continue).
Proof.
  intros s d Hclock.
  destruct (run_deadline_invariant schedule interval _
              (new_deadline_invariant db tbl interval now)) as [_ Hinv].
  destruct (Hinv Hclock) as [Hok (Hsince & Hopen & _)]. fold s in Hok.
  split; [exact Hok|]. split; [split; [exact Hopen|exact Hsince]|]. split.
  - intros pre b1 mid t2 b2 post Htrace Hmid. rewrite Htrace in Hok.
    apply deadline_respected_app in Hok as [_ [_ Hok]].
    exact (next_flush_waits_for_the_interval interval mid
             (observe (observe_all Deadline_init pre) (Flushed b1)) t2 b2 post
             eq_refl eq_refl Hmid Hok).
  - intros env ctl s'. apply pass_with_records_does_not_block.
Qed.

(** ** The theorems at work on the sample inputs *)

Lemma flush_deadline_is_a_rolling_window_witness :
  let s := run sample_deadline_schedule sample_QueryLog in
  clock_monotone Deadline_init (trace s) /\
  (TryPopped 50 ∈ trace s) /\
  deadline_respected 100 Deadline_init (trace s) /\
  time_after_last_write s = {| start_ns := 250000000 |} /\
  (exists quiet t1 rest,
     [Restarted 120000000; Popped] = quiet ++ Restarted t1 :: rest /\
     Forall no_reading quiet /\
     100 * 1000000 <= 250000000 - t1).
Proof.
  assert (Hclock : clock_monotone Deadline_init
                     (trace (run sample_deadline_schedule sample_QueryLog))).
  { vm_compute. repeat split; discriminate. }
  destruct (flush_deadline_is_a_rolling_window
              sample_deadline_schedule "system" "query_log" 100 0 Hclock)
    as (Hok & (_ & Hsince) & Hgap & _).
  split; [exact Hclock|]. split.
  - refine (bool_decide_unpack _ _). vm_compute. exact I.
  - split; [exact Hok|]. split; [exact Hsince|].
    apply (Hgap [Restarted 0; Restarted 0; Popped; Elapsed 0; Elapsed 50000000;
                 TryPopped 50; Elapsed 50000000; Elapsed 120000000;
                 Elapsed 120000000]
             [assign_type (sample_record "q1") SHUTDOWN;
              assign_type (sample_record "q2") SHUTDOWN]
             [Restarted 120000000; Popped] 250000000
             [assign_type (sample_record "q3") SHUTDOWN]
             [Restarted 250000000]).
    + reflexivity.
    + repeat constructor.
Defined.

Lemma exceptions_stay_in_the_saving_thread_witness :
  let e := std_exception "Poco::SystemException" in
  let env := failing_pop_env 7 e in
  let s1 := snd (threadFunction_try env sample_QueryLog) in
  threadFunction_try env sample_QueryLog = (Raised e, s1) /\
  threadFunction_pass env sample_QueryLog
    = (Normal Continue, emit (Logged PRETTY_FUNCTION_threadFunction e) (set_data [] s1)).
Proof.
  split; [reflexivity|].
  exact (proj2 (proj1 exceptions_stay_in_the_saving_thread
                  (failing_pop_env 7 (std_exception "Poco::SystemException"))
                  sample_QueryLog _ _ eq_refl)).
Defined.

Lemma failed_flush_batch_is_dropped_witness :
  let s := run sample_failing_schedule sample_QueryLog in
  NoDup (query_id <$> offered sample_failing_schedule) /\
  Logged PRETTY_FUNCTION_flush (std_exception "std::bad_alloc") ∈ trace s /\
  forall r, r ∈ [assign_type (sample_record "q1") SHUTDOWN] ->
            (r ∉ [assign_type (sample_record "q2") SHUTDOWN]) /\
            (r ∉ data s) /\ (r ∉ items (queue s)).
Proof.
  assert (Hids : NoDup (query_id <$> offered sample_failing_schedule)).
  { refine (bool_decide_unpack _ _). vm_compute. exact I. }
  split; [exact Hids|]. split.
  - refine (bool_decide_unpack _ _). vm_compute. exact I.
  - exact (proj2 failed_flush_batch_is_dropped
             sample_failing_schedule "system" "query_log" 100 0
             [Restarted 0; Restarted 0; Popped; Elapsed 0;
              Elapsed 150000000; Elapsed 150000000]
             [assign_type (sample_record "q1") SHUTDOWN]
             (std_exception "std::bad_alloc")
             [Restarted 150000000; Popped; Elapsed 300000000]
             [assign_type (sample_record "q2") SHUTDOWN]
             [Restarted 300000000]
             Hids eq_refl).
Defined.

Lemma queue_capacity_and_add_witness :
  add (sample_record "q1") sample_QueryLog
    = Done (set_queue {| max_fill := 1024; items := [sample_record "q1"] |} sample_QueryLog) /\
  add (sample_record "q1") sample_full_QueryLog = WouldBlock /\
  (exists s', add (sample_record "q1")
                (set_queue {| max_fill := 1; items := [] |} sample_full_QueryLog) = Done s').
Proof.
  destruct queue_capacity_and_add as (_ & _ & _ & Hroom & Hfull & Hfreed & _).
  split; [|split].
  - apply (Hroom (sample_record "q1") sample_QueryLog).
    cbn. unfold DBMS_QUERY_LOG_QUEUE_SIZE. lia.
  - apply (Hfull (sample_record "q1") sample_full_QueryLog). cbn. lia.
  - apply (Hfreed (sample_record "q1") sample_full_QueryLog (sample_record "q0")).
    + cbn. lia.
    + reflexivity.
Defined.

(** * Further properties of the saving thread *)

(** X1: in every run, [flush()] is entered only with a non-empty
    accumulator: the periodic flush follows a successful [push_back] or
    finds records already accumulated. *)
Theorem flush_is_never_entered_with_an_empty_accumulator
    (schedule : list Event) (db tbl : string) (interval now : Z) :
  Forall flush_batch_nonempty (trace (run schedule (QueryLog_new db tbl interval now))).
Proof.
  apply (run_invariant (fun s => Forall flush_batch_nonempty (trace s))).
  - intros element s1 s2 [_ ->]%add_unfold Hs1. exact Hs1.
  - intros env s ctl s'. split_pass;
      rewrite ?Forall_app, ?Forall_cons, ?Forall_nil; cbn; repeat split; try done.
  - cbn. repeat constructor.
Qed.

(** X2: a pass at whose end the stopwatch shows at least the flush
    interval leaves the accumulator empty, whatever happened in it; a pass
    that leaves records behind ended normally with less than the interval
    on the stopwatch. *)
Theorem pass_after_the_deadline_leaves_no_record env s ctl s' :
  threadFunction_pass env s = (ctl, s') ->
  (flush_interval_milliseconds s
     <= Stopwatch_elapsed (clock_after_wait env) (deadline_stopwatch env s) / 1000000 ->
   data s' = []) /\
  (data s' <> [] ->
   ctl = Normal Continue /\
   Stopwatch_elapsed (clock_after_wait env) (time_after_last_write s') / 1000000
     < flush_interval_milliseconds s').
Proof.
  unfold deadline_stopwatch.
  split_pass; to_Prop; (split; [intros; try reflexivity; try lia | intros; try done; try (split; [reflexivity|lia])]).
Qed.

Ltac split_pass_and_queue :=
  unfold_M; unfold queue_pop; cbn;
  repeat (split_once; cbn); intros; simplify_eq/=; use_equations.

(** X3: a pass waits without a bound exactly when the accumulator and the
    queue are both empty (and [pop] does not raise): with a record at hand
    every wait of the thread has a bound. *)
Theorem pass_blocks_only_when_idle env s :
  fst (threadFunction_pass env s) = Suspended
  <-> data s = [] /\ items (queue s) = [] /\ queue_failure env = None.
Proof.
  split.
  - destruct (threadFunction_pass env s) as [ctl s'] eqn:Hpass. cbn. intros ->.
    revert Hpass. split_pass_and_queue; done.
  - intros (Hdata & Hitems & Hfail). revert Hdata Hitems Hfail.
    split_pass_and_queue; try done.
Qed.

Lemma pass_without_queue_failures_keeps_records env s ctl s' :
  queue_failure env = None -> push_back_failure env = None ->
  threadFunction_pass env s = (ctl, s') ->
  records_in_order s' = records_in_order s.
Proof.
  unfold records_in_order.
  split_pass; use_queue_pop; use_equations; flatten_lists; reflexivity.
Qed.

(** X4: in a run in which neither the queue nor [push_back] raises, no
    record is lost, even when flushes fail: what the object holds or has
    handed to [flush()] is what it held before, in the same order,
    followed by the elements the queue accepted. *)
Theorem run_without_queue_failures_loses_no_record schedule s :
  Forall keeps_records schedule ->
  exists accepted,
    accepted `sublist_of` offered schedule /\
    records_in_order (run schedule s) = records_in_order s ++ (query_id <$> accepted).
Proof.
  revert s. induction schedule as [|ev schedule IH]; intros s Hquiet.
  - exists []. split; [done|]. cbn. by rewrite app_nil_r.
  - apply Forall_cons in Hquiet as [Hev Hquiet]. rewrite run_cons.
    destruct (IH (step s ev) Hquiet) as (accepted & Hsub & ->).
    destruct ev as [element| |env]; unfold step, after_wait; cbn [offered].
    + destruct (add element s) eqn:Hadd.
      * exists (element :: accepted). split; [by apply sublist_skip|].
        rewrite (add_records_in_order _ _ _ Hadd), <- app_assoc. done.
      * exists accepted. split; [by apply sublist_cons|done].
    + rewrite destructor_push_add. destruct (add shutdown_element s) eqn:Hadd.
      * exists (shutdown_element :: accepted). split; [by apply sublist_skip|].
        rewrite (add_records_in_order _ _ _ Hadd), <- app_assoc. done.
      * exists accepted. split; [by apply sublist_cons|done].
    + exists accepted. split; [done|]. f_equal.
      destruct Hev as [Hq Hp]. destruct (saving_thread s); try done.
      destruct (threadFunction_pass env s) as [ctl s'] eqn:Hpass.
      pose proof (pass_without_queue_failures_keeps_records _ _ _ _ Hq Hp Hpass) as Heq.
      destruct (pass_outcome _ _ _ _ Hpass) as [-> | ->]; exact Heq.
Qed.

(** X5: after its first pass the loop restarts the stopwatch exactly when
    it has flushed, and then whether or not the flush failed: a pass
    either hands nothing to [flush()] and leaves the stopwatch as it was
    (arriving records do not move the deadline), or flushes once, a
    non-empty batch, empties the accumulator and restarts the stopwatch
    at the clock read after the flush. *)
Theorem stopwatch_restarts_exactly_at_a_flush env s ctl s' :
  first s = false ->
  threadFunction_pass env s = (ctl, s') ->
  (flushed_records (trace s') = flushed_records (trace s) /\
   time_after_last_write s' = time_after_last_write s) \/
  (exists batch,
     batch <> [] /\
     flushed_records (trace s') = flushed_records (trace s) ++ batch /\
     data s' = [] /\
     time_after_last_write s' = {| start_ns := clock_restart env |}).
Proof.
  split_pass; rewrite ?flushed_records_app; cbn; rewrite ?app_nil_r;
    first [ left; split; reflexivity
          | right; eexists; split; [|split; [reflexivity|split; reflexivity]]; done ].
Qed.

(** X6: a pass takes at most one element from the queue, from its front;
    afterwards the accumulator is what it was, possibly with that one
    element appended (its kind overwritten), or it is empty. *)
Theorem pass_takes_at_most_one_element env s ctl s' :
  threadFunction_pass env s = (ctl, s') ->
  (items (queue s') = items (queue s) /\ (data s' = data s \/ data s' = [])) \/
  (exists x,
     items (queue s) = x :: items (queue s') /\
     (data s' = data s ++ [assign_type x SHUTDOWN] \/ data s' = [])).
Proof.
  split_pass; use_queue_pop; use_equations; cbn; eauto 6.
Qed.

(** X7: when the writer has been idle for at least the flush interval,
    the first record that arrives is popped and flushed in the same pass,
    in a batch of its own, and the stopwatch is restarted: nothing is
    batched with it. *)
Theorem first_record_after_an_idle_interval_is_flushed_alone
    env s x rest ctl s' :
  first s = false -> data s = [] -> items (queue s) = x :: rest ->
  queue_failure env = None -> push_back_failure env = None ->
  flush_interval_milliseconds s
    <= Stopwatch_elapsed (clock_after_wait env) (time_after_last_write s) / 1000000 ->
  threadFunction_pass env s = (ctl, s') ->
  ctl = Normal Continue /\
  trace s' = trace s ++ [Popped; Elapsed (clock_after_wait env);
                         Flushed [assign_type x SHUTDOWN]]
                     ++ match flush_failure env with
                        | Some e => [Logged PRETTY_FUNCTION_flush e]
                        | None => []
                        end
                     ++ [Restarted (clock_restart env)] /\
  data s' = [] /\ items (queue s') = rest.
Proof.
  intros Hfirst Hdata Hitems Hq Hp Hdue. revert Hfirst Hdata Hitems Hq Hp Hdue.
  split_pass_and_queue; to_Prop; try lia;
    rewrite <- ?app_assoc; cbn; done.
Qed.

Lemma logged_count_app tr1 tr2 :
  logged_count (tr1 ++ tr2) = (logged_count tr1 + logged_count tr2)%nat.
Proof.
  induction tr1 as [|ef tr1 IH]; [reflexivity|].
  destruct ef; cbn; rewrite ?IH; reflexivity.
Qed.

Lemma pass_logged_count env s ctl s' :
  threadFunction_pass env s = (ctl, s') ->
  (logged_count (trace s') <= logged_count (trace s) + (if env_raises env then 1 else 0))%nat.
Proof.
  unfold env_raises.
  split_pass; rewrite ?logged_count_app; cbn; lia.
Qed.

(** X8: the saving thread reports at most one exception for each pass in
    which some call raises, and none for the others: in a run without
    failures [tryLogCurrentException] is never called. *)
Theorem exceptions_logged_at_most_once_per_raising_pass
    (schedule : list Event) (db tbl : string) (interval now : Z) :
  (logged_count (trace (run schedule (QueryLog_new db tbl interval now)))
   <= raising_passes schedule)%nat.
Proof.
  enough (Hgen : forall s, (logged_count (trace (run schedule s))
                            <= logged_count (trace s) + raising_passes schedule)%nat)
    by apply (Hgen (QueryLog_new db tbl interval now)).
  induction schedule as [|ev schedule IH]; intros s; [cbn; lia|].
  rewrite run_cons. etrans; [apply IH|].
  destruct ev as [element| |env]; unfold step, after_wait; cbn [raising_passes].
  - destruct (add element s) eqn:Hadd; [|done].
    apply add_unfold in Hadd as [_ ->]. done.
  - rewrite destructor_push_add. destruct (add shutdown_element s) eqn:Hadd; [|done].
    apply add_unfold in Hadd as [_ ->]. done.
  - destruct (saving_thread s); try lia.
    destruct (threadFunction_pass env s) as [ctl s'] eqn:Hpass.
    pose proof (pass_logged_count _ _ _ _ Hpass) as Hle.
    destruct (pass_outcome _ _ _ _ Hpass) as [-> | ->]; lia.
Qed.

(** X9: when an exception reaches the catch of the loop, the records
    accumulated so far are dropped without having been handed to
    [flush()]: the accumulator is emptied, no batch is added to what was
    flushed, the exception is reported once, and the stopwatch is left as
    it was. *)
Theorem loop_catch_drops_the_accumulator_unflushed env s e s1 ctl s' :
  threadFunction_try env s = (Raised e, s1) ->
  threadFunction_pass env s = (ctl, s') ->
  ctl = Normal Continue /\
  data s' = [] /\
  flushed_records (trace s') = flushed_records (trace s) /\
  logged_count (trace s') = S (logged_count (trace s)) /\
  (first s = false -> time_after_last_write s' = time_after_last_write s).
Proof.
  split_pass; rewrite ?flushed_records_app, ?logged_count_app; cbn;
    rewrite ?app_nil_r; repeat split; try done; lia.
Qed.


Lemma Stopwatch_elapsed_milliseconds_nonneg now w :
  0 <= Stopwatch_elapsed now w / 1000000.
Proof.
  apply Z.div_pos; [|lia]. unfold Stopwatch_elapsed, UInt64_modulus.
  apply Z.mod_pos_bound. lia.
Qed.

Lemma pass_wait_within env s ctl s' :
  threadFunction_pass env s = (ctl, s') ->
  Forall (wait_within (flush_interval_milliseconds s)) (trace s) ->
  flush_interval_milliseconds s' = flush_interval_milliseconds s /\
  Forall (wait_within (flush_interval_milliseconds s)) (trace s').
Proof.
  split_pass; to_Prop; (split; [reflexivity|]);
    rewrite ?Forall_app, ?Forall_cons, ?Forall_nil; cbn; repeat split; try done;
    match goal with
    | |- context [Stopwatch_elapsed ?now ?w] =>
        pose proof (Stopwatch_elapsed_milliseconds_nonneg now w); lia
    end.
Qed.

(** X10: in every run, whatever the clock readings are, each timed wait
    on the queue is for more than zero and at most
    [flush_interval_milliseconds] milliseconds. *)
Theorem timed_wait_never_exceeds_the_flush_interval
    (schedule : list Event) (db tbl : string) (interval now : Z) :
  Forall (wait_within interval) (trace (run schedule (QueryLog_new db tbl interval now))).
Proof.
  apply (run_invariant
           (fun s => flush_interval_milliseconds s = interval /\
                     Forall (wait_within interval) (trace s))).
  - intros element s1 s2 [_ ->]%add_unfold Hs1. exact Hs1.
  - intros env s ctl s' Hpass [Hint Htrace]. rewrite <- Hint in Htrace.
    destruct (pass_wait_within _ _ _ _ Hpass Htrace) as [Hint' Htrace'].
    rewrite <- Hint. split; congruence.
  - split; [reflexivity|]. cbn. repeat constructor.
Qed.

Lemma loop_catch_drops_the_accumulator_unflushed_witness :
  let env := failing_pop_env 50000000 (std_exception "Poco::SystemException") in
  let s' := snd (threadFunction_pass env sample_accumulating) in
  data sample_accumulating = [assign_type (sample_record "q1") SHUTDOWN] /\
  data s' = [] /\
  flushed_records (trace s') = flushed_records (trace sample_accumulating).
Proof.
  split; [reflexivity|].
  pose proof (loop_catch_drops_the_accumulator_unflushed
                (failing_pop_env 50000000 (std_exception "Poco::SystemException"))
                sample_accumulating _ _ _ _ eq_refl eq_refl) as (_ & Hdata & Hflushed & _).
  exact (conj Hdata Hflushed).
Defined.

Lemma pass_after_the_deadline_leaves_no_record_witness :
  data (snd (threadFunction_pass (quiet_env 150000000) sample_accumulating)) = [].
Proof.
  refine (proj1 (pass_after_the_deadline_leaves_no_record
                   (quiet_env 150000000) sample_accumulating _ _ eq_refl) _).
  vm_compute. discriminate.
Defined.

Lemma pass_blocks_only_when_idle_witness :
  fst (threadFunction_pass (quiet_env 0) sample_QueryLog) = Suspended.
Proof.
  exact (proj2 (pass_blocks_only_when_idle (quiet_env 0) sample_QueryLog)
           (conj eq_refl (conj eq_refl eq_refl))).
Defined.

Lemma run_without_queue_failures_loses_no_record_witness :
  exists accepted,
    accepted `sublist_of` offered sample_deadline_schedule /\
    records_in_order (run sample_deadline_schedule sample_QueryLog)
      = records_in_order sample_QueryLog ++ (query_id <$> accepted).
Proof.
  apply (run_without_queue_failures_loses_no_record
           sample_deadline_schedule sample_QueryLog).
  repeat constructor.
Defined.

Lemma stopwatch_restarts_exactly_at_a_flush_witness :
  let s := sample_accumulating in
  let s' := snd (threadFunction_pass (quiet_env 150000000) s) in
  (flushed_records (trace s') = flushed_records (trace s) /\
   time_after_last_write s' = time_after_last_write s) \/
  (exists batch,
     batch <> [] /\
     flushed_records (trace s') = flushed_records (trace s) ++ batch /\
     data s' = [] /\
     time_after_last_write s' = {| start_ns := 150000000 |}).
Proof.
  exact (stopwatch_restarts_exactly_at_a_flush
           (quiet_env 150000000) sample_accumulating _ _ eq_refl eq_refl).
Defined.

Lemma pass_takes_at_most_one_element_witness :
  let s := sample_idle_with_record in
  let s' := snd (threadFunction_pass (quiet_env 50000000) s) in
  (items (queue s') = items (queue s) /\ (data s' = data s \/ data s' = [])) \/
  (exists x,
     items (queue s) = x :: items (queue s') /\
     (data s' = data s ++ [assign_type x SHUTDOWN] \/ data s' = [])).
Proof.
  exact (pass_takes_at_most_one_element
           (quiet_env 50000000) sample_idle_with_record _ _ eq_refl).
Defined.

Lemma first_record_after_an_idle_interval_is_flushed_alone_witness :
  let s := sample_idle_with_record in
  let s' := snd (threadFunction_pass (quiet_env 150000000) s) in
  trace s' = trace s ++ [Popped; Elapsed 150000000;
                         Flushed [assign_type (sample_record "q1") SHUTDOWN];
                         Restarted 150000000] /\
  data s' = [] /\ items (queue s') = [].
Proof.
  refine (proj2 (first_record_after_an_idle_interval_is_flushed_alone
                   (quiet_env 150000000) sample_idle_with_record
                   (sample_record "q1") [] _ _
                   eq_refl eq_refl eq_refl eq_refl eq_refl _ eq_refl)).
  vm_compute. discriminate.
Defined.

(** ** h3HexAreaM2 *)

Module H3_properties.
Import H3.

Section WithH3Library.
Variable MAX_H3_RES : Z.
Variable hexAreaM2 : Z -> float.

Lemma UInt64_to_int_small z : 0 <= z < 2 ^ 31 -> UInt64_to_int z = z.
Proof.
  intros Hz. unfold UInt64_to_int. rewrite Z.mod_small by lia.
  destruct (Z.ltb_spec z (2 ^ 31)); lia.
Qed.

(** The rows [i], ..., [i + k - 1] of the loop: either all of them are
    within bounds and each has its area stored, or the first one that
    is not raises. *)
Lemma executeImpl_rows_spec data (k i : nat) dst :
  (i + k <= length data)%nat ->
  Forall (fun r => 0 <= r < 256) data ->
  (Forall (fun r => r <= MAX_H3_RES) (take k (drop i data)) /\
   exists dst',
     executeImpl_rows MAX_H3_RES hexAreaM2 (ColumnVector_UInt8 data) (seq i k) dst
       = Some (Ok dst') /\
     length dst' = length dst /\
     forall j, dst' !! j =
       if decide ((i <= j < i + k)%nat /\ (j < length dst)%nat)
       then hexAreaM2 <$> data !! j else dst !! j)
  \/
  (exists row resolution,
     (i <= row < i + k)%nat /\ data !! row = Some resolution /\
     MAX_H3_RES < resolution /\
     executeImpl_rows MAX_H3_RES hexAreaM2 (ColumnVector_UInt8 data) (seq i k) dst
       = Some (Throw (out_of_bounds_message MAX_H3_RES resolution) ARGUMENT_OUT_OF_BOUND)).
Proof.
  intros Hlen Hall. revert i dst Hlen.
  induction k as [|k IH]; intros i dst Hlen.
  - left. split; [rewrite take_0; constructor|].
    exists dst. cbn. split; [done|]. split; [done|].
    intros j. case_decide; [lia|done].
  - cbn [seq executeImpl_rows]. unfold executeImpl_row. cbn [getUInt].
    destruct (data !! i) as [r|] eqn:Hr; last first.
    { apply lookup_ge_None in Hr. lia. }
    cbn. pose proof (proj1 (Forall_lookup _ _) Hall _ _ Hr) as Hri. cbn in Hri.
    destruct (Z.ltb_spec MAX_H3_RES r) as [Hbig|Hsmall].
    { right. exists i, r. repeat split; try done; lia. }
    rewrite UInt64_to_int_small by lia.
    destruct (IH (S i) (<[i := hexAreaM2 r]> dst)) as
      [(Hrest & dst' & Hrun & Hl & Hlook)|(row & r' & Hrow & Hr' & Hbig & Hrun)]; [lia| |].
    + left. split.
      { rewrite (drop_S _ r) by done. cbn. constructor; done. }
      exists dst'. split; [exact Hrun|]. rewrite length_insert in Hl. split; [exact Hl|].
      intros j. rewrite Hlook, length_insert.
      destruct (decide (j = i)) as [->|Hne].
      * repeat case_decide; try lia.
        -- rewrite list_lookup_insert_eq by lia. by rewrite Hr.
        -- rewrite !lookup_ge_None_2; [done|lia|rewrite length_insert; lia].
      * rewrite list_lookup_insert_ne by done.
        repeat case_decide; try lia; done.
    + right. exists row, r'. repeat split; try done; lia.
Qed.

(** C8: [executeImpl] checks the range of its argument row by row: at a
    row the body of the loop raises ARGUMENT_OUT_OF_BOUND exactly when
    the resolution of that row is above MAX_H3_RES, and otherwise
    stores [hexAreaM2(resolution)] at that row; so the call raises
    ARGUMENT_OUT_OF_BOUND exactly when some row is above MAX_H3_RES, and
    otherwise the result column holds [hexAreaM2] of every row. *)
Theorem executeImpl_validates_resolution
    (block : Block) (arguments : list nat) (result argument : nat) (data : list Z) :
  arguments !! 0%nat = Some argument ->
  block !! argument = Some (ColumnVector_UInt8 data) ->
  (result < length block)%nat ->
  Forall (fun r => 0 <= r < 256) data ->
  let outcome := executeImpl MAX_H3_RES hexAreaM2 block arguments result (length data) in
  (forall row resolution dst_data,
     data !! row = Some resolution ->
     executeImpl_row MAX_H3_RES hexAreaM2 (ColumnVector_UInt8 data) row dst_data
       = Some (if decide (MAX_H3_RES < resolution)
               then Throw (out_of_bounds_message MAX_H3_RES resolution) ARGUMENT_OUT_OF_BOUND
               else Ok (<[row := hexAreaM2 resolution]> dst_data))) /\
  ((exists message, outcome = Some (Throw message ARGUMENT_OUT_OF_BOUND))
     <-> Exists (fun r => MAX_H3_RES < r) data) /\
  (Forall (fun r => r <= MAX_H3_RES) data ->
   outcome = Some (Ok (<[result := ColumnVector_Float64 (hexAreaM2 <$> data)]> block))).
Proof.
  intros Harg Hcol Hres Hall outcome.
  assert (Hok : Forall (fun r => r <= MAX_H3_RES) data ->
                outcome = Some (Ok (<[result := ColumnVector_Float64 (hexAreaM2 <$> data)]> block))).
  { intros Hsmall. subst outcome. unfold executeImpl. rewrite Harg. cbn. rewrite Hcol. cbn.
    destruct (executeImpl_rows_spec data (length data) 0 (replicate (length data) 0%float))
      as [(_ & dst' & -> & Hl & Hlook)|(row & r & _ & Hr & Hbig & _)]; [lia|done| |].
    - cbn. rewrite decide_True by done. do 4 f_equal.
      apply list_eq. intros j. rewrite Hlook, list_lookup_fmap, length_replicate.
      case_decide as Hj; [done|].
      rewrite !lookup_ge_None_2; [done| lia |rewrite length_replicate; lia].
    - pose proof (proj1 (Forall_lookup _ _) Hsmall _ _ Hr). cbn in *. lia. }
  assert (Hthrow : Exists (fun r => MAX_H3_RES < r) data ->
                   exists message, outcome = Some (Throw message ARGUMENT_OUT_OF_BOUND)).
  { intros Hex. subst outcome. unfold executeImpl. rewrite Harg. cbn. rewrite Hcol. cbn.
    destruct (executeImpl_rows_spec data (length data) 0 (replicate (length data) 0%float))
      as [(Hsmall & _)|(row & r & _ & Hr & Hbig & ->)]; [lia|done| |].
    - rewrite drop_0, firstn_all in Hsmall.
      apply Exists_exists in Hex as (r & Hin & Hbig).
      pose proof (proj1 (Forall_forall _ _) Hsmall _ Hin). cbn in *. lia.
    - cbn. eauto. }
  split; [|split; [split|]]; [| |exact Hthrow|exact Hok].
  - intros row resolution dst_data Hr. unfold executeImpl_row. cbn. rewrite Hr. cbn.
    pose proof (proj1 (Forall_lookup _ _) Hall _ _ Hr) as Hri. cbn in Hri.
    destruct (Z.ltb_spec MAX_H3_RES resolution); case_decide; try lia; [done|].
    by rewrite UInt64_to_int_small by lia.
  - intros [message Hout].
    destruct (decide (Exists (fun r => MAX_H3_RES < r) data)) as [|Hno]; [done|].
    rewrite Hok in Hout; [discriminate|].
    apply Forall_forall. intros r Hin.
    destruct (decide (r <= MAX_H3_RES)); [done|].
    exfalso. apply Hno, Exists_exists. exists r. split; [done|lia].
Qed.
End WithH3Library.

Lemma executeImpl_validates_resolution_witness :
  executeImpl 15 sample_hexAreaM2 (sample_block [0; 3; 15]) [0%nat] 1 3
    = Some (Ok [ColumnVector_UInt8 [0; 3; 15];
                ColumnVector_Float64 (sample_hexAreaM2 <$> [0; 3; 15])]) /\
  (exists message,
     executeImpl 15 sample_hexAreaM2 (sample_block [0; 16; 15]) [0%nat] 1 3
       = Some (Throw message ARGUMENT_OUT_OF_BOUND)).
Proof.
  split.
  - apply (executeImpl_validates_resolution 15 sample_hexAreaM2
             (sample_block [0; 3; 15]) [0%nat] 1 0 [0; 3; 15]);
      try reflexivity; [cbn; lia | | ]; repeat constructor; lia.
  - apply (executeImpl_validates_resolution 15 sample_hexAreaM2
             (sample_block [0; 16; 15]) [0%nat] 1 0 [0; 16; 15]);
      try reflexivity; [cbn; lia | repeat constructor; lia | ].
    apply Exists_cons_tl, Exists_cons_hd. lia.
Defined.

End H3_properties.

(** ** h3HexAreaM2: the order and the extent of the check *)

Module H3_more.
Import H3 H3_properties.

Section WithH3Library.
Variable MAX_H3_RES : Z.
Variable hexAreaM2 : Z -> float.

Lemma executeImpl_rows_first_out_of_bounds data (k i row : nat) resolution dst :
  (i <= row < i + k)%nat ->
  data !! row = Some resolution ->
  MAX_H3_RES < resolution ->
  (forall j r, (i <= j < row)%nat -> data !! j = Some r -> 0 <= r <= MAX_H3_RES /\ r < 2 ^ 31) ->
  executeImpl_rows MAX_H3_RES hexAreaM2 (ColumnVector_UInt8 data) (seq i k) dst
    = Some (Throw (out_of_bounds_message MAX_H3_RES resolution) ARGUMENT_OUT_OF_BOUND).
Proof.
  revert i dst. induction k as [|k IH]; intros i dst Hrow Hres Hbig Hbefore; [lia|].
  cbn [seq executeImpl_rows]. unfold executeImpl_row. cbn [getUInt].
  destruct (decide (row = i)) as [->|Hne].
  - rewrite Hres. cbn. destruct (Z.ltb_spec MAX_H3_RES resolution); [done|lia].
  - destruct (data !! i) as [r|] eqn:Hr; last first.
    { apply lookup_ge_None in Hr. apply lookup_lt_Some in Hres. lia. }
    cbn. destruct (Hbefore i r) as [Hr1 Hr2]; [lia|done|].
    destruct (Z.ltb_spec MAX_H3_RES r); [lia|].
    apply IH; try done; [lia|]. intros j r' Hj. apply Hbefore. lia.
Qed.

(** X11: the rows are checked in order: when a row is above MAX_H3_RES and
    every row before it is within bounds, the call raises
    ARGUMENT_OUT_OF_BOUND with the message for that row's resolution,
    whatever the rows after it hold. *)
Theorem executeImpl_reports_the_first_row_out_of_bounds
    (block : Block) (arguments : list nat) (result argument input_rows_count : nat)
    (before : list Z) (resolution : Z) (after : list Z) :
  arguments !! 0%nat = Some argument ->
  block !! argument = Some (ColumnVector_UInt8 (before ++ resolution :: after)) ->
  (length before < input_rows_count)%nat ->
  Forall (fun r => 0 <= r <= MAX_H3_RES /\ r < 256) before ->
  MAX_H3_RES < resolution ->
  executeImpl MAX_H3_RES hexAreaM2 block arguments result input_rows_count
    = Some (Throw (out_of_bounds_message MAX_H3_RES resolution) ARGUMENT_OUT_OF_BOUND).
Proof.
  intros Harg Hcol Hlen Hbefore Hbig. unfold executeImpl. rewrite Harg. cbn. rewrite Hcol. cbn.
  rewrite (executeImpl_rows_first_out_of_bounds _ _ 0 (length before) resolution); try done.
  - lia.
  - by rewrite list_lookup_middle.
  - intros j r Hj Hr. rewrite lookup_app_l in Hr by lia.
    pose proof (proj1 (Forall_lookup _ _) Hbefore _ _ Hr) as H. cbn in H. lia.
Qed.

(** X12: the call reads the first [input_rows_count] rows of its argument
    only: when these are within bounds it succeeds whatever the rows
    beyond hold, the result column has exactly [input_rows_count] rows,
    [hexAreaM2] of each row read, and every other column of the block and
    the number of columns are as before. *)
Theorem executeImpl_reads_the_first_input_rows_only
    (block : Block) (arguments : list nat) (result argument input_rows_count : nat)
    (data : list Z) :
  arguments !! 0%nat = Some argument ->
  block !! argument = Some (ColumnVector_UInt8 data) ->
  (result < length block)%nat ->
  (input_rows_count <= length data)%nat ->
  Forall (fun r => 0 <= r < 256) data ->
  Forall (fun r => r <= MAX_H3_RES) (take input_rows_count data) ->
  exists block',
    executeImpl MAX_H3_RES hexAreaM2 block arguments result input_rows_count = Some (Ok block') /\
    length block' = length block /\
    block' !! result
      = Some (ColumnVector_Float64 (hexAreaM2 <$> take input_rows_count data)) /\
    forall position, position <> result -> block' !! position = block !! position.
Proof.
  intros Harg Hcol Hres Hlen Hall Hsmall. unfold executeImpl. rewrite Harg. cbn. rewrite Hcol. cbn.
  destruct (executeImpl_rows_spec MAX_H3_RES hexAreaM2 data input_rows_count 0
              (replicate input_rows_count 0%float))
    as [(_ & dst' & -> & Hl & Hlook)|(row & r & Hrow & Hr & Hbig & _)]; [lia|done| |].
  - cbn -[insert]. rewrite decide_True by done.
    exists (<[result := ColumnVector_Float64 dst']> block). split; [reflexivity|].
    split; [apply length_insert|]. split.
    + unfold Block in *. rewrite list_lookup_insert_eq by done. do 2 f_equal.
      apply list_eq. intros j. rewrite Hlook, list_lookup_fmap, length_replicate.
      case_decide as Hj.
      * by rewrite lookup_take_lt by lia.
      * rewrite (lookup_ge_None_2 (replicate _ _)) by (rewrite length_replicate; lia).
        rewrite (lookup_ge_None_2 (take _ _)) by (rewrite length_take; lia). done.
    + intros position Hne. unfold Block in *. by rewrite list_lookup_insert_ne.
  - assert (Hin : take input_rows_count data !! row = Some r)
      by (rewrite lookup_take_lt by lia; done).
    pose proof (proj1 (Forall_lookup _ _) Hsmall _ _ Hin) as H. cbn in H. lia.
Qed.

End WithH3Library.

Lemma executeImpl_reports_the_first_row_out_of_bounds_witness :
  executeImpl 15 sample_hexAreaM2 (sample_block [0; 16; 3; 20]) [0%nat] 1 4
    = Some (Throw (out_of_bounds_message 15 16) ARGUMENT_OUT_OF_BOUND).
Proof.
  apply (executeImpl_reports_the_first_row_out_of_bounds 15 sample_hexAreaM2
           (sample_block [0; 16; 3; 20]) [0%nat] 1 0 4 [0] 16 [3; 20]);
    try reflexivity; [cbn; lia | ].
  apply Forall_cons. split; [cbn; lia | apply Forall_nil_2].
Defined.

Lemma executeImpl_reads_the_first_input_rows_only_witness :
  exists block',
    executeImpl 15 sample_hexAreaM2 (sample_block [0; 3; 15; 200]) [0%nat] 1 3
      = Some (Ok block') /\
    length block' = 2%nat /\
    block' !! 1%nat = Some (ColumnVector_Float64 (sample_hexAreaM2 <$> [0; 3; 15])) /\
    forall position, position <> 1%nat ->
      block' !! position = sample_block [0; 3; 15; 200] !! position.
Proof.
  apply (executeImpl_reads_the_first_input_rows_only 15 sample_hexAreaM2
           (sample_block [0; 3; 15; 200]) [0%nat] 1 0 3 [0; 3; 15; 200]);
    try reflexivity; [cbn; lia | cbn; lia | |]; repeat constructor; lia.
Defined.

End H3_more.
